(** * ws-shuffle-sim: the riffle-shuffle simulation of index.js

    A shallow embedding of [index.js].  JavaScript arrays are objects that
    are shared by reference and updated in place, so the program is
    modelled over an explicit store of arrays: a location is an index in
    the store, [Array.prototype.splice], element assignment and the spread
    copy are store operations, and every function of the script is a
    computation in a state monad over the store and the position reached
    in the stream of [Math.random()] results.

    Numbers: a finite Number of the language is a rational [Q], and the
    products with a [Math.random()] result and the quotient returned by
    [calculateAverageDistance] are rounded to the nearest binary64 value,
    ties to even, as the language does ([binary64]).  Array lengths,
    indices and the integer parameters are [Z]: sums and differences of
    integers and of the half-integer [deck.length / 2] are exact in
    binary64 as long as they stay below [2^52], so they are computed
    exactly. *)

From stdpp Require Import base list.
From Stdlib Require Import ZArith QArith Qround Qabs Qpower Lia Lqa.

Local Open Scope Z_scope.

(** ** Numbers *)

(** [Math.floor]. *)
Definition Math_floor (x : Q) : Z := Qfloor x.

(** [ToIntegerOrInfinity] of the language specification, as applied by
    [splice] to its numeric arguments: truncation towards zero.  It is the
    identity on integers, so it is written out only where the argument can
    be fractional. *)
Definition ToIntegerOrInfinity (x : Q) : Z := Z.quot (Qnum x) (Z.pos (Qden x)).

(** *** Numbers of the language: IEEE 754 binary64

    A finite Number is a rational of the form [m * 2^q] with [|m| < 2^53]
    and [-1074 <= q].  The arithmetic operations of the language give the
    exact result rounded to the nearest such value, ties to the one with an
    even [m].  (A result of magnitude [2^1024] or more would be an infinity;
    nothing in the script comes near it, and it is not modelled.) *)

Definition pow2 (q : Z) : Q := (2 ^ q)%Q.

(** The binary exponent of a positive number: the [e] with
    [2^e <= x < 2^(e+1)], see [exponent_spec]. *)
Definition exponent (x : Q) : Z :=
  let e := Z.log2 (Qnum x) - Z.log2 (Z.pos (Qden x)) in
  if Qle_bool (pow2 e) x then e else e - 1.

(** The nearest integer, ties to even. *)
Definition roundTiesToEven (a : Q) : Z :=
  let f := Qfloor a in
  match (a - inject_Z f ?= 1 # 2)%Q with
  | Lt => f
  | Gt => f + 1
  | Eq => if Z.even f then f else f + 1
  end.

(** The exponent of the unit in the last place of the Numbers around [x]:
    53 significant bits, and [2^-1074] for the subnormal numbers. *)
Definition quantum (x : Q) : Z := Z.max (exponent (Qabs x) - 52) (-1074).

(** The Number nearest to [x]. *)
Definition binary64 (x : Q) : Q :=
  if Qeq_bool x 0 then 0%Q
  else (inject_Z (roundTiesToEven (x / pow2 (quantum x))) * pow2 (quantum x))%Q.

(** [x * y] and [x / y] on Numbers ([y] is not zero where the script
    divides). *)
Definition Number_mul (x y : Q) : Q := binary64 (x * y).
Definition Number_div (x y : Q) : Q := binary64 (x / y).

(** A [Math.random()] result is a Number of the half-open unit interval. *)
Definition unit_interval (r : Q) : Prop :=
  (binary64 r == r)%Q /\ (0 <= r)%Q /\ (r < 1)%Q.

(** ** Arrays *)

Abbreviation elems := (list Z).

(** The position at which [splice] works: a negative [start] counts from
    the end, and [start] is capped at the length. *)
Definition actualStart (len start : Z) : Z :=
  if start <? 0 then Z.max (len + start) 0 else Z.min start len.

(** [l.splice(start, deleteCount, ...items)] on the contents of [l]: the
    pair of the removed elements (the contents of the array that the call
    returns) and the new contents of [l].  [deleteCount] is clamped between
    zero and the number of elements from the position on. *)
Definition splice (l : elems) (start deleteCount : Z) (items : elems)
  : elems * elems :=
  let len := Z.of_nat (length l) in
  let a := Z.to_nat (actualStart len start) in
  let d :=
    Z.to_nat (Z.min (Z.max deleteCount 0) (len - actualStart len start)) in
  (take d (drop a l), take a l ++ items ++ drop (a + d) l).

(** ** The store and the monad *)

Definition loc := nat.

Record state := mkState {
  heap : list elems;   (* the arrays allocated so far, by location *)
  cursor : nat         (* how many Math.random() results were consumed *)
}.

(** A computation returns [None] only when a [while] loop is cut off by its
    iteration budget. *)
Definition M (A : Type) : Type := state -> option (A * state).

Definition ret {A} (a : A) : M A := fun st => Some (a, st).

Definition bind {A B} (m : M A) (k : A -> M B) : M B :=
  fun st => match m st with
            | Some (a, st') => k a st'
            | None => None
            end.

Declare Scope js_scope.
Delimit Scope js_scope with js.
Notation "x <- m ;; k" := (bind m (fun x => k))
  (at level 100, m at level 99, right associativity) : js_scope.
Notation "m ;;; k" := (bind m (fun _ => k))
  (at level 100, right associativity) : js_scope.
Local Open Scope js_scope.

Definition out_of_budget {A} : M A := fun _ => None.

(** Contents of the array at a location (the empty array at a location that
    was never allocated; the script has no dangling reference). *)
Definition contents (h : list elems) (a : loc) : elems := h !!! a.

(** A new array object. *)
Definition alloc (v : elems) : M loc :=
  fun st => Some (length (heap st), mkState (heap st ++ [v]) (cursor st)).

(** [...a]: the elements of [a], in order. *)
Definition spread (a : loc) : M elems :=
  fun st => Some (contents (heap st) a, st).

(** [a.length]. *)
Definition Array_length (a : loc) : M Z :=
  fun st => Some (Z.of_nat (length (contents (heap st) a)), st).

(** [a.splice(start, deleteCount, ...items)]: updates [a] in place and
    returns a new array holding the removed elements. *)
Definition Array_splice (a : loc) (start deleteCount : Z) (items : elems)
  : M loc :=
  fun st =>
    let '(removed, rest) := splice (contents (heap st) a) start deleteCount items in
    Some (length (heap st),
          mkState (<[a := rest]> (heap st) ++ [removed]) (cursor st)).

(** [a[i]] for an index inside the array. *)
Definition Array_get (a : loc) (i : Z) : M Z :=
  fun st => Some (contents (heap st) a !!! Z.to_nat i, st).

(** [a[i] = v] for an index inside the array.  (An assignment past the end
    would extend a JavaScript array; the indices of the script stay inside,
    see [draw_index_in_range].) *)
Definition Array_set (a : loc) (i : Z) (v : Z) : M unit :=
  fun st =>
    Some (tt, mkState (<[a := <[Z.to_nat i := v]> (contents (heap st) a)]> (heap st))
                      (cursor st)).

Section Program.

(** The results of the successive calls of [Math.random()]. *)
Variable rnd : nat -> Q.

Definition Math_random : M Q :=
  fun st => Some (rnd (cursor st), mkState (heap st) (S (cursor st))).

(** *** riffleShuffle *)

(** Line 52: [deck.length / 2 + Math.floor(Math.random() * 9) - splitError],
    for the random result [r]; the division is not floored. *)
Definition cutDeckVariant (len : Z) (r : Q) (splitError : Z) : Q :=
  ((len # 2) + inject_Z (Math_floor (Number_mul r 9)) - inject_Z splitError)%Q.

(** Lines 52-53: the cut, which returns [leftHalf]. *)
Definition splitDeck (deck : loc) (splitError : Z) : M loc :=
  len <- Array_length deck ;;
  r <- Math_random ;;
  Array_splice deck 0 (ToIntegerOrInfinity (cutDeckVariant len r splitError)) [].

(** Lines 57-60: the body of the [while] loop, which returns the new
    values of [leftCount] and [rightCount].  The arguments of the outer
    [splice] are evaluated before it is called, so the packet is removed
    from [leftHalf] first. *)
Definition interleave_body (deck leftHalf : loc) (packetError : Z)
    (leftCount rightCount : Z) : M (Z * Z) :=
  r1 <- Math_random ;;
  let takeAmount := Math_floor (Number_mul r1 (inject_Z packetError)) in
  packet <- Array_splice leftHalf leftCount takeAmount [] ;;
  items <- spread packet ;;
  Array_splice deck rightCount 0 items ;;;
  let leftCount' := leftCount - takeAmount in
  r2 <- Math_random ;;
  let rightCount' :=
    rightCount - Math_floor (Number_mul r2 (inject_Z packetError))
    + takeAmount in
  ret (leftCount', rightCount').

(** Lines 56-61: the [while] loop, which returns the final [rightCount].
    [budget] is the number of iterations allowed. *)
Fixpoint interleave (budget : nat) (deck leftHalf : loc) (packetError : Z)
    (leftCount rightCount : Z) : M Z :=
  if 0 <? leftCount then
    match budget with
    | O => out_of_budget
    | S budget' =>
        counts <-
          interleave_body deck leftHalf packetError leftCount rightCount ;;
        interleave budget' deck leftHalf packetError counts.1 counts.2
    end
  else ret rightCount.

(** Line 62: what is left of [leftHalf] goes into [deck] at [rightCount]. *)
Definition flush (deck leftHalf : loc) (rightCount : Z) : M unit :=
  rest <- spread leftHalf ;;
  Array_splice deck rightCount 0 rest ;;;
  ret tt.

(** Lines 52-62: one repetition. *)
Definition repetition (budget : nat) (deck : loc) (splitError packetError : Z)
  : M unit :=
  leftHalf <- splitDeck deck splitError ;;
  leftCount <- Array_length leftHalf ;;
  len <- Array_length deck ;;
  r <- Math_random ;;
  let rightCount := len - Math_floor (Number_mul r (inject_Z splitError)) in
  rightCount' <- interleave budget deck leftHalf packetError leftCount rightCount ;;
  flush deck leftHalf rightCount'.

(** Lines 51-63: the [for] loop; its counter is used for nothing else, so
    the number of repetitions is a natural number. *)
Fixpoint repetitions_loop (budget : nat) (deck : loc) (repetitions : nat)
    (splitError packetError : Z) : M unit :=
  match repetitions with
  | O => ret tt
  | S n =>
      repetition budget deck splitError packetError ;;;
      repetitions_loop budget deck n splitError packetError
  end.

(** Lines 49-65.  Line 50 copies the elements of [deckInput] into a new
    array, which is the one that the loops work on and that is returned. *)
Definition riffleShuffle (budget : nat) (deckInput : loc) (repetitions : nat)
    (splitError packetError : Z) : M loc :=
  items <- spread deckInput ;;
  deck <- alloc items ;;
  repetitions_loop budget deck repetitions splitError packetError ;;;
  ret deck.

(** *** fisherYatesShuffle *)

(** Lines 69-73: the [for] loop, started at [i = array.length - 1] and run
    while [i > 0].  The destructuring assignment reads [array[j]] and
    [array[i]] first and then stores them at [i] and at [j]. *)
Fixpoint fisherYates_loop (array : loc) (i : nat) : M unit :=
  match i with
  | O => ret tt
  | S i' =>
      r <- Math_random ;;
      let j := Math_floor (Number_mul r (inject_Z (Z.of_nat i + 1))) in
      x <- Array_get array j ;;
      y <- Array_get array (Z.of_nat i) ;;
      Array_set array (Z.of_nat i) x ;;;
      Array_set array j y ;;;
      fisherYates_loop array i'
  end.

(** Lines 67-75: the array is returned as it was received, by reference. *)
Definition fisherYatesShuffle (array : loc) : M loc :=
  len <- Array_length array ;;
  fisherYates_loop array (Z.to_nat (len - 1)) ;;;
  ret array.

End Program.

(** *** calculateAverageDistance *)

(** Lines 82-90: the scan, from index [i] on, over the elements that are
    left; it returns [distanceSum] and [count]. *)
Fixpoint distance_loop (rest : elems) (i distanceSum count lastOneIndex : Z)
  : Z * Z :=
  match rest with
  | [] => (distanceSum, count)
  | x :: rest' =>
      if x =? 1 then
        if negb (lastOneIndex =? -1) then
          distance_loop rest' (i + 1) (distanceSum + (i - lastOneIndex - 1))
                        (count + 1) i
        else distance_loop rest' (i + 1) distanceSum count i
      else distance_loop rest' (i + 1) distanceSum count lastOneIndex
  end.

(** The function only reads its argument, so it is given the contents.
    Line 92: the quotient is a Number. *)
Definition calculateAverageDistance (array : elems) : Q :=
  let '(distanceSum, count) := distance_loop array 0 0 0 (-1) in
  if 0 <? count then Number_div (inject_Z distanceSum) (inject_Z count)
  else 0%Q.

(** *** The script *)

(** Lines 41-47: the constants and the three decks. *)
Definition SIM_COUNT : nat := Z.to_nat 300000.
Definition REPETITIONS : nat := 7.
Definition SPLIT_ERROR : Z := 4.
Definition PACKET_ERROR : Z := 4.

Definition bottomStacked_init : elems :=
  [0; 0; 0; 0; 0; 0; 0; 0; 0; 0; 0; 0; 0; 0; 0; 0; 0; 0; 0; 0; 0; 0; 0; 0; 0;
   0; 0; 0; 0; 0; 0; 0; 0; 0; 0; 0; 0; 0; 0; 0; 0; 0; 1; 1; 1; 1; 1; 1; 1; 1].
Definition piled_init : elems :=
  [0; 0; 0; 0; 0; 1; 0; 0; 0; 0; 0; 1; 0; 0; 0; 0; 0; 1; 0; 0; 0; 0; 0; 1; 0;
   0; 0; 0; 0; 1; 0; 0; 0; 0; 0; 1; 0; 0; 0; 0; 0; 0; 1; 0; 0; 0; 0; 0; 0; 1].
Definition unordered_init : elems :=
  [0; 0; 0; 0; 0; 1; 0; 0; 0; 0; 1; 0; 0; 0; 0; 1; 0; 1; 0; 1; 0; 0; 0; 0; 1;
   0; 0; 0; 0; 0; 0; 0; 0; 0; 0; 0; 0; 0; 0; 0; 0; 1; 1; 0; 0; 0; 0; 0; 0; 0].

(** The three module-level arrays, in the order of their declarations. *)
Definition bottomStacked : loc := 0%nat.
Definition piled : loc := 1%nat.
Definition unordered : loc := 2%nat.

(** The state in which the simulations start. *)
Definition initial_state : state :=
  mkState [bottomStacked_init; piled_init; unordered_init] 0.

Section Script.

Variable rnd : nat -> Q.

(** Lines 97-101: [trials] iterations of the loop over the unordered deck;
    [shuffledArrays] is the array of results, extended by [push]. *)
Fixpoint simulateUnordered (budget : nat) (template : loc) (trials : nat)
    (shuffledArrays : list loc) : M (list loc) :=
  match trials with
  | O => ret shuffledArrays
  | S n =>
      randomizedUnordered <- fisherYatesShuffle rnd template ;;
      shuffled <- riffleShuffle rnd budget randomizedUnordered
                    REPETITIONS SPLIT_ERROR PACKET_ERROR ;;
      simulateUnordered budget template n (shuffledArrays ++ [shuffled])
  end.

(** Lines 116-119 and 134-137: the loop over a fixed deck. *)
Fixpoint simulateFixed (budget : nat) (template : loc) (trials : nat)
    (shuffledArrays : list loc) : M (list loc) :=
  match trials with
  | O => ret shuffledArrays
  | S n =>
      shuffled <- riffleShuffle rnd budget template
                    REPETITIONS SPLIT_ERROR PACKET_ERROR ;;
      simulateFixed budget template n (shuffledArrays ++ [shuffled])
  end.

(** Lines 102, 120 and 138: [shuffledArrays.map(calculateAverageDistance)]. *)
Definition averages (shuffledArrays : list loc) : M (list Q) :=
  fun st =>
    Some (map (fun a => calculateAverageDistance (contents (heap st) a))
              shuffledArrays, st).

(** Lines 97-138, without the reports: the three simulations in the order
    of the script, each followed by the computation of its averages. *)
Definition main (budget : nat) : M (list Q * list Q * list Q) :=
  unorderedShuffledArrays <-
    simulateUnordered budget unordered SIM_COUNT [] ;;
  unorderedShuffledAverages <- averages unorderedShuffledArrays ;;
  bottomStackedShuffledArrays <-
    simulateFixed budget bottomStacked SIM_COUNT [] ;;
  bottomStackedShuffledAverages <- averages bottomStackedShuffledArrays ;;
  piledShuffledArrays <- simulateFixed budget piled SIM_COUNT [] ;;
  piledShuffledAverages <- averages piledShuffledArrays ;;
  ret (unorderedShuffledAverages, bottomStackedShuffledAverages,
       piledShuffledAverages).

End Script.

#[global] Arguments splice : simpl never.
#[global] Arguments Math_floor : simpl never.
#[global] Arguments pow2 : simpl never.
#[global] Arguments binary64 : simpl never.
#[global] Arguments Number_mul : simpl never.
#[global] Arguments Number_div : simpl never.
#[global] Arguments ToIntegerOrInfinity : simpl never.
#[global] Arguments cutDeckVariant : simpl never.
#[global] Arguments contents : simpl never.

(** ** A functional model of riffleShuffle on array contents

    The loops of [riffleShuffle] work on two arrays that nothing else
    refers to, the copy [deck] and [leftHalf].  Their effect on the contents
    of these two arrays is described by the functions below, which thread
    the contents and the position in the random stream; [interleave_run],
    [repetition_run] and [riffleShuffle_run] prove that the program computes
    exactly this on the store. *)

Section Model.

Variable rnd : nat -> Q.

(** The packet size drawn at position [n] of the random stream. *)
Definition takeAmount_at (packetError : Z) (n : nat) : Z :=
  Math_floor (Number_mul (rnd n) (inject_Z packetError)).

(** One iteration: the new contents of [deck] and [leftHalf] and the new
    [leftCount] and [rightCount], for the iteration that starts at position
    [c] of the random stream. *)
Definition body_model (packetError : Z) (c : nat) (D L : elems)
    (leftCount rightCount : Z) : elems * elems * Z * Z :=
  let takeAmount := takeAmount_at packetError c in
  let packet := (splice L leftCount takeAmount []).1 in
  ((splice D rightCount 0 packet).2,
   (splice L leftCount takeAmount []).2,
   leftCount - takeAmount,
   rightCount - Math_floor (Number_mul (rnd (S c)) (inject_Z packetError))
   + takeAmount).

Fixpoint interleave_model (budget : nat) (packetError : Z) (c : nat)
    (D L : elems) (leftCount rightCount : Z) : option (elems * elems * Z * nat) :=
  if 0 <? leftCount then
    match budget with
    | O => None
    | S budget' =>
        let '(D', L', leftCount', rightCount') :=
          body_model packetError c D L leftCount rightCount in
        interleave_model budget' packetError (S (S c)) D' L' leftCount' rightCount'
    end
  else Some (D, L, rightCount, c).

(** The cut: the contents of [leftHalf] and the new contents of [deck]. *)
Definition split_model (splitError : Z) (c : nat) (D : elems) : elems * elems :=
  splice D 0
    (ToIntegerOrInfinity
       (cutDeckVariant (Z.of_nat (length D)) (rnd c) splitError)) [].

Definition repetition_model (budget : nat) (splitError packetError : Z)
    (c : nat) (D : elems) : option (elems * nat) :=
  let '(L, D1) := split_model splitError c D in
  let leftCount := Z.of_nat (length L) in
  let rightCount :=
    Z.of_nat (length D1)
    - Math_floor (Number_mul (rnd (S c)) (inject_Z splitError)) in
  match interleave_model budget packetError (S (S c)) D1 L leftCount rightCount with
  | None => None
  | Some (D2, L2, rightCount', c') => Some (snd (splice D2 rightCount' 0 L2), c')
  end.

Fixpoint riffle_model (budget : nat) (repetitions : nat)
    (splitError packetError : Z) (c : nat) (D : elems) : option (elems * nat) :=
  match repetitions with
  | O => Some (D, c)
  | S n =>
      match repetition_model budget splitError packetError c D with
      | None => None
      | Some (D', c') => riffle_model budget n splitError packetError c' D'
      end
  end.

End Model.

(** What a piece of code leaves alone: every array that existed before,
    except those at the locations [X], has the contents it had. *)
Definition unchanged_outside (X : list loc) (h h' : list elems) : Prop :=
  (length h <= length h')%nat /\
  forall a, (a < length h)%nat -> a ∉ X -> contents h' a = contents h a.

(** ** Definitions for the statements: the specification's wording and
    the inputs of the examples *)

(** The number of cards marked 1. *)
Definition count_marked (deck : elems) : nat := count_occ Z.eq_dec deck 1.

(** Streams of [Math.random()] results used in the examples. *)
Definition always_half : nat -> Q := fun _ => 1 # 2.
Definition always_zero : nat -> Q := fun _ => 0%Q.

(** The number of cards that the cut takes: the truncated [cutDeckVariant],
    brought back into the range from 0 to the length of the deck. *)
Definition clamped_cut (len : Z) (r : Q) (splitError : Z) : Z :=
  Z.min (Z.max (ToIntegerOrInfinity (cutDeckVariant len r splitError)) 0) len.

(** The number of iterations that the [while] loop of lines 56-61 makes
    when it is entered with [leftCount] at position [c] of the random
    stream: the condition of line 56 is tested on [leftCount], which an
    iteration decreases by the packet size drawn at line 57, the first of
    the two random results that the iteration consumes.  [None] when the
    loop needs more than [budget] iterations. *)
Fixpoint while_iterations (rnd : nat -> Q) (budget : nat) (packetError : Z)
    (c : nat) (leftCount : Z) : option nat :=
  if 0 <? leftCount then
    match budget with
    | O => None
    | S budget' =>
        option_map S
          (while_iterations rnd budget' packetError (S (S c))
             (leftCount - takeAmount_at rnd packetError c))
    end
  else Some 0%nat.

(** The cards counted off [leftCount] by the first [n] iterations of a
    loop entered at position [c]: the sum of the packet sizes drawn. *)
Fixpoint packets_drawn (rnd : nat -> Q) (packetError : Z) (c : nat) (n : nat)
  : Z :=
  match n with
  | O => 0
  | S n' =>
      takeAmount_at rnd packetError c
      + packets_drawn rnd packetError (S (S c)) n'
  end.

(** The number of iterations of all the loops of a call on a deck of [len]
    cards: a repetition consumes two random results before its loop, the first of
    them for the cut, and enters the loop with the number of cards that the
    cut took; the next repetition starts where the loop stopped, on a deck
    of the same length. *)
Fixpoint riffle_iterations (rnd : nat -> Q) (budget repetitions : nat)
    (splitError packetError : Z) (c : nat) (len : Z) : option nat :=
  match repetitions with
  | O => Some 0%nat
  | S n =>
      match while_iterations rnd budget packetError (S (S c))
              (clamped_cut len (rnd c) splitError) with
      | None => None
      | Some k =>
          option_map (Nat.add k)
            (riffle_iterations rnd budget n splitError packetError
               (S (S c) + 2 * k) len)
      end
  end.

(** An eight-card deck. *)
Definition small_deck : elems := [1; 0; 0; 1; 0; 1; 0; 0].

(** A four-card deck; with [splitError = 4] the computed size is [U - 2]. *)
Definition four_cards : elems := [1; 0; 0; 1].

(** Two random streams that differ only in the result used for the cut:
    [U = 1] for the first and [U = 2] for the second. *)
Definition cut_below_zero : nat -> Q :=
  fun n => match n with O => 1 # 8 | _ => 1 # 2 end.
Definition cut_at_zero : nat -> Q :=
  fun n => match n with O => 1 # 4 | _ => 1 # 2 end.

(** The random results of the example for the packets. *)
Definition packet_draws : nat -> Q :=
  fun n =>
    match n with
    | 0%nat => 1 # 2
    | 2%nat => 3 # 4
    | 4%nat => 1 # 4
    | _ => 0
    end%Q.

(** The distance metric in the words of the specification: the marked
    cards are taken in position order; each marked card after the first
    contributes [currentIndex - previousIndex - 1]; the result is the sum of
    these gaps divided by their number, and 0 when there is no gap.  The
    division is the one of the language, on Numbers. *)
Fixpoint marked_positions_from (i : Z) (deck : elems) : list Z :=
  match deck with
  | [] => []
  | x :: deck' =>
      if x =? 1 then i :: marked_positions_from (i + 1) deck'
      else marked_positions_from (i + 1) deck'
  end.

Definition marked_positions (deck : elems) : list Z :=
  marked_positions_from 0 deck.

Fixpoint gaps_after (previousIndex : Z) (positions : list Z) : list Z :=
  match positions with
  | [] => []
  | currentIndex :: rest =>
      (currentIndex - previousIndex - 1) :: gaps_after currentIndex rest
  end.

Definition gaps (positions : list Z) : list Z :=
  match positions with
  | [] => []
  | first :: rest => gaps_after first rest
  end.

Definition sum_list (l : list Z) : Z := fold_right Z.add 0 l.

Definition averageDistance_spec (deck : elems) : Q :=
  let g := gaps (marked_positions deck) in
  if 0 <? Z.of_nat (length g)
  then Number_div (inject_Z (sum_list g)) (inject_Z (Z.of_nat (length g)))
  else 0%Q.

(** The algorithm in the words of the specification: the positions from the
    last index down to index 1 are visited in turn; at position [i] an index
    [j] is drawn in [0, i] and the elements at [i] and [j] are exchanged. *)
Definition exchange (l : elems) (i j : nat) : elems :=
  <[j := l !!! i]> (<[i := l !!! j]> l).

(** The index drawn at position [i] from the random result [r]. *)
Definition draw_index (r : Q) (i : nat) : nat :=
  Z.to_nat (Math_floor (Number_mul r (inject_Z (Z.of_nat i + 1)))).

Definition positions_down_to_1 (n : nat) : list nat := rev (seq 1 (n - 1)).

Definition fisherYates_spec (rnd : nat -> Q) (c : nat) (l : elems)
  : elems * nat :=
  fold_left (fun lc i => (exchange lc.1 i (draw_index (rnd lc.2) i), S lc.2))
            (positions_down_to_1 (length l)) (l, c).

(** The randomized runner in the words of the specification: each trial
    obtains a freshly permuted deck, shuffles it, and contributes one
    result. *)
Fixpoint run_randomized_spec (rnd : nat -> Q) (budget : nat) (template : loc)
    (trialCount : nat) : M (list loc) :=
  match trialCount with
  | O => ret []
  | S n =>
      deck <- fisherYatesShuffle rnd template ;;
      shuffled <- riffleShuffle rnd budget deck REPETITIONS SPLIT_ERROR
                    PACKET_ERROR ;;
      rest <- run_randomized_spec rnd budget template n ;;
      ret (shuffled :: rest)
  end.

(** 1 when [x] is [v], for counting occurrences. *)
Definition indicator (x v : Z) : nat := if Z.eq_dec x v then 1 else 0.

(** Locations of arrays created between two states of the store, all
    different. *)
Definition fresh_from (n : nat) (arrays : list loc) (bound : nat) : Prop :=
  Forall (fun a => (n <= a < bound)%nat) arrays /\ NoDup arrays.

(** [(n - m) / (m - 1)], as a Number, for a deck of [n] cards of which [m]
    are marked. *)
Definition average_bound (template : elems) : Q :=
  Number_div
    (inject_Z (Z.of_nat (length template) - Z.of_nat (count_marked template)))
    (inject_Z (Z.of_nat (count_marked template) - 1)).

(** ** Facts about numbers *)

Lemma pow2_pos (q : Z) : (0 < pow2 q)%Q.
Proof. now apply Qpower_0_lt. Qed.

Lemma pow2_add (a b : Z) : (pow2 (a + b) == pow2 a * pow2 b)%Q.
Proof. now apply Qpower_plus. Qed.

Lemma pow2_le (a b : Z) : a <= b -> (pow2 a <= pow2 b)%Q.
Proof. intros H. now apply Qpower_le_compat_l. Qed.

Lemma pow2_lt (a b : Z) : a < b -> (pow2 a < pow2 b)%Q.
Proof. intros H. now apply Qpower_lt_compat_l. Qed.

Lemma pow2_lt_inv (a b : Z) : (pow2 a < pow2 b)%Q -> a < b.
Proof. intros H. now apply (Qpower_lt_compat_l_inv 2). Qed.

Lemma pow2_Z (n : Z) : 0 <= n -> (pow2 n == inject_Z (2 ^ n))%Q.
Proof. intros H. unfold pow2. now rewrite Zpower_Qpower. Qed.

Lemma pow2_0 : (pow2 0 == 1)%Q.
Proof. reflexivity. Qed.

Lemma pow2_succ_r (a : Z) : (pow2 (a + 1) == 2 * pow2 a)%Q.
Proof. rewrite pow2_add. change (pow2 1) with 2%Q. ring. Qed.

#[global] Instance pow2_proper : Proper (eq ==> Qeq) pow2.
Proof. intros a b ->. reflexivity. Qed.

(** Multiplying and dividing by a power of two. *)
Lemma div_pow2_mul (x : Q) (q : Z) : (x / pow2 q * pow2 q == x)%Q.
Proof. field. pose proof (pow2_pos q). lra. Qed.

Lemma div_pow2_le (x y : Q) (q : Z) : (x <= y)%Q -> (x / pow2 q <= y / pow2 q)%Q.
Proof.
  intros H. apply Qmult_le_compat_r; [done|].
  apply Qinv_le_0_compat, Qlt_le_weak, pow2_pos.
Qed.

(** Integers among the rationals. *)
Lemma inject_Z_nonneg (n : Z) : 0 <= n -> (0 <= inject_Z n)%Q.
Proof. intros H. change 0%Q with (inject_Z 0). now rewrite <- Zle_Qle. Qed.

Lemma inject_Z_pos (n : Z) : 0 < n -> (0 < inject_Z n)%Q.
Proof. intros H. change 0%Q with (inject_Z 0). now rewrite <- Zlt_Qlt. Qed.

Lemma inject_Z_ge_1 (n : Z) : 1 <= n -> (1 <= inject_Z n)%Q.
Proof. intros H. change 1%Q with (inject_Z 1). now rewrite <- Zle_Qle. Qed.

Lemma inject_Z_nonpos (n : Z) : n <= 0 -> (inject_Z n <= 0)%Q.
Proof. intros H. change 0%Q with (inject_Z 0). now rewrite <- Zle_Qle. Qed.

(** The binary exponent of a positive number. *)
Lemma exponent_spec (x : Q) :
  (0 < x)%Q -> (pow2 (exponent x) <= x)%Q /\ (x < pow2 (exponent x + 1))%Q.
Proof.
  intros Hx. destruct x as [n d]. unfold exponent. cbn [Qnum Qden].
  assert (Hn : 0 < n) by (revert Hx; unfold Qlt; simpl; lia).
  pose proof (Z.log2_spec n Hn) as [Hn1 Hn2].
  pose proof (Z.log2_spec (Z.pos d) ltac:(lia)) as [Hd1 Hd2].
  pose proof (Z.log2_nonneg n) as Hln.
  pose proof (Z.log2_nonneg (Z.pos d)) as Hld.
  set (ln := Z.log2 n) in *. set (ld := Z.log2 (Z.pos d)) in *.
  unfold Z.succ in *.
  assert (Hup : (n # d < pow2 (ln - ld + 1))%Q).
  { apply (Qmult_lt_r _ _ (pow2 ld) (pow2_pos ld)).
    rewrite <- pow2_add. replace (ln - ld + 1 + ld) with (ln + 1) by lia.
    rewrite !pow2_Z by lia.
    set (A := 2 ^ (ln + 1)) in *. set (B := 2 ^ ld) in *. clearbody A B.
    unfold Qlt, Qmult, inject_Z. cbn [Qnum Qden]. nia. }
  assert (Hlow : (pow2 (ln - ld - 1) <= n # d)%Q).
  { apply (Qmult_le_r _ _ (pow2 (ld + 1)) (pow2_pos _)).
    rewrite <- pow2_add. replace (ln - ld - 1 + (ld + 1)) with ln by lia.
    rewrite !pow2_Z by lia.
    set (A := 2 ^ ln) in *. set (B := 2 ^ (ld + 1)) in *. clearbody A B.
    unfold Qle, Qmult, inject_Z. cbn [Qnum Qden]. nia. }
  destruct (Qle_bool (pow2 (ln - ld)) (n # d)) eqn:E.
  - apply Qle_bool_iff in E. done.
  - split; [done|]. replace (ln - ld - 1 + 1) with (ln - ld) by lia.
    apply Qnot_le_lt. intros H. apply Qle_bool_iff in H. congruence.
Qed.

(** The exponent is determined by the bounds. *)
Lemma exponent_unique (x : Q) (e : Z) :
  (pow2 e <= x)%Q -> (x < pow2 (e + 1))%Q -> exponent x = e.
Proof.
  intros H1 H2.
  assert (Hx : (0 < x)%Q) by (pose proof (pow2_pos e); lra).
  destruct (exponent_spec x Hx) as [H3 H4].
  assert (exponent x < e + 1) by (apply pow2_lt_inv; lra).
  assert (e < exponent x + 1) by (apply pow2_lt_inv; lra).
  lia.
Qed.

Lemma exponent_mono (x y : Q) :
  (0 < x)%Q -> (x <= y)%Q -> exponent x <= exponent y.
Proof.
  intros Hx Hxy.
  destruct (exponent_spec x Hx) as [H1 _].
  destruct (exponent_spec y ltac:(lra)) as [_ H2].
  assert (exponent x < exponent y + 1) by (apply pow2_lt_inv; lra).
  lia.
Qed.

Lemma Qabs_nonneg_eq (x : Q) : (0 <= x)%Q -> Qabs x = x.
Proof.
  destruct x as [n d]. unfold Qle, Qabs. cbn [Qnum Qden]. intros H.
  f_equal. lia.
Qed.

(** Rounding to the nearest integer. *)
Lemma roundTiesToEven_floor (a : Q) :
  roundTiesToEven a = Qfloor a \/ roundTiesToEven a = Qfloor a + 1.
Proof.
  unfold roundTiesToEven.
  destruct (_ ?= _)%Q; [destruct (Z.even _)|..]; auto.
Qed.

Lemma roundTiesToEven_error (a : Q) :
  (a - (1 # 2) <= inject_Z (roundTiesToEven a))%Q
  /\ (inject_Z (roundTiesToEven a) <= a + (1 # 2))%Q.
Proof.
  pose proof (Qfloor_le a) as H1. pose proof (Qlt_floor a) as H2.
  rewrite inject_Z_plus in H2. change (inject_Z 1) with 1%Q in H2.
  unfold roundTiesToEven.
  destruct (Qcompare_spec (a - inject_Z (Qfloor a)) (1 # 2)) as [E|E|E];
    [destruct (Z.even _)|..];
    rewrite ?inject_Z_plus; change (inject_Z 1) with 1%Q; lra.
Qed.

Lemma roundTiesToEven_Z (n : Z) : roundTiesToEven (inject_Z n) = n.
Proof.
  unfold roundTiesToEven. rewrite Qfloor_Z.
  destruct (Qcompare_spec (inject_Z n - inject_Z n) (1 # 2)) as [E|E|E];
    [lra | done | lra].
Qed.

Lemma roundTiesToEven_mono (a b : Q) :
  (a <= b)%Q -> roundTiesToEven a <= roundTiesToEven b.
Proof.
  intros Hab. pose proof (Qfloor_resp_le a b Hab) as Hf.
  destruct (Z.eq_dec (Qfloor a) (Qfloor b)) as [E|E].
  - unfold roundTiesToEven. rewrite <- E.
    destruct (Qcompare_spec (a - inject_Z (Qfloor a)) (1 # 2)) as [Ea|Ea|Ea];
      destruct (Qcompare_spec (b - inject_Z (Qfloor a)) (1 # 2)) as [Eb|Eb|Eb];
      try destruct (Z.even _); try lia; lra.
  - destruct (roundTiesToEven_floor a), (roundTiesToEven_floor b); lia.
Qed.

#[global] Instance roundTiesToEven_proper : Proper (Qeq ==> eq) roundTiesToEven.
Proof.
  intros a b E. unfold roundTiesToEven. rewrite (Qfloor_comp a b E).
  now rewrite E.
Qed.

Lemma roundTiesToEven_le_Z (a : Q) (n : Z) :
  (a <= inject_Z n)%Q -> roundTiesToEven a <= n.
Proof.
  intros H. rewrite <- (roundTiesToEven_Z n). now apply roundTiesToEven_mono.
Qed.

Lemma roundTiesToEven_ge_Z (a : Q) (n : Z) :
  (inject_Z n <= a)%Q -> n <= roundTiesToEven a.
Proof.
  intros H. rewrite <- (roundTiesToEven_Z n) at 1.
  now apply roundTiesToEven_mono.
Qed.

(** Rounding to the nearest Number. *)
Lemma binary64_eq (x : Q) :
  ~ (x == 0)%Q ->
  binary64 x
  = (inject_Z (roundTiesToEven (x / pow2 (quantum x))) * pow2 (quantum x))%Q.
Proof.
  intros H. unfold binary64.
  destruct (Qeq_bool x 0) eqn:E; [now apply Qeq_bool_iff in E | done].
Qed.

Lemma binary64_0 (x : Q) : (x == 0)%Q -> binary64 x = 0%Q.
Proof.
  intros H. unfold binary64. apply Qeq_bool_iff in H. now rewrite H.
Qed.

Lemma quantum_pos (x : Q) :
  (0 <= x)%Q -> quantum x = Z.max (exponent x - 52) (-1074).
Proof. intros H. unfold quantum. now rewrite Qabs_nonneg_eq. Qed.

(** The result is on the same side of every multiple of the quantum as the
    number that is rounded. *)
Lemma binary64_le_multiple (x : Q) (N : Z) :
  ~ (x == 0)%Q -> (x <= inject_Z N * pow2 (quantum x))%Q ->
  (binary64 x <= inject_Z N * pow2 (quantum x))%Q.
Proof.
  intros H0 H. rewrite binary64_eq by done.
  pose proof (pow2_pos (quantum x)) as Hq.
  apply Qmult_le_compat_r; [|lra].
  rewrite <- Zle_Qle. apply roundTiesToEven_le_Z.
  now apply Qle_shift_div_r.
Qed.

Lemma binary64_ge_multiple (x : Q) (N : Z) :
  ~ (x == 0)%Q -> (inject_Z N * pow2 (quantum x) <= x)%Q ->
  (inject_Z N * pow2 (quantum x) <= binary64 x)%Q.
Proof.
  intros H0 H. rewrite binary64_eq by done.
  pose proof (pow2_pos (quantum x)) as Hq.
  apply Qmult_le_compat_r; [|lra].
  rewrite <- Zle_Qle. apply roundTiesToEven_ge_Z.
  now apply Qle_shift_div_l.
Qed.

Lemma binary64_multiple (x : Q) (N : Z) :
  (x == inject_Z N * pow2 (quantum x))%Q -> (binary64 x == x)%Q.
Proof.
  intros H. destruct (Qeq_dec x 0) as [E|E].
  - rewrite binary64_0 by done. now rewrite E.
  - apply Qle_antisym.
    + apply (Qle_trans _ (inject_Z N * pow2 (quantum x))); [|lra].
      apply binary64_le_multiple; [done | lra].
    + apply (Qle_trans _ (inject_Z N * pow2 (quantum x))); [lra|].
      apply binary64_ge_multiple; [done | lra].
Qed.

Lemma binary64_nonneg (x : Q) : (0 <= x)%Q -> (0 <= binary64 x)%Q.
Proof.
  intros H. destruct (Qeq_dec x 0) as [E|E].
  - rewrite binary64_0 by done. lra.
  - pose proof (binary64_ge_multiple x 0 E) as H1.
    change (inject_Z 0) with 0%Q in H1. lra.
Qed.

(** Rounding keeps the order. *)
Lemma binary64_mono (x y : Q) :
  (0 <= x)%Q -> (x <= y)%Q -> (binary64 x <= binary64 y)%Q.
Proof.
  intros Hx Hxy. destruct (Qeq_dec x 0) as [E|E].
  { rewrite (binary64_0 x) by done. apply binary64_nonneg. lra. }
  assert (Hx' : (0 < x)%Q) by lra.
  assert (Ey : ~ (y == 0)%Q) by lra.
  pose proof (exponent_mono x y Hx' Hxy) as He.
  destruct (exponent_spec x Hx') as [_ Hx2].
  destruct (exponent_spec y ltac:(lra)) as [Hy1 _].
  pose proof (quantum_pos x Hx) as Qx. pose proof (quantum_pos y ltac:(lra)) as Qy.
  destruct (Z.eq_dec (quantum x) (quantum y)) as [Eq|Eq].
  - rewrite !binary64_eq by done. rewrite Eq.
    pose proof (pow2_pos (quantum y)).
    apply Qmult_le_compat_r; [|lra].
    rewrite <- Zle_Qle. apply roundTiesToEven_mono. now apply div_pow2_le.
  - assert (Hq : quantum x < quantum y) by lia.
    assert (Hq' : quantum y = exponent y - 52) by lia.
    apply (Qle_trans _ (pow2 (exponent y))).
    + assert (Ep : (pow2 (exponent y)
                    == inject_Z (2 ^ (exponent y - quantum x)) * pow2 (quantum x))%Q).
      { rewrite <- pow2_Z by lia. rewrite <- pow2_add. f_equiv. lia. }
      rewrite Ep. apply binary64_le_multiple; [done|]. rewrite <- Ep.
      apply Qlt_le_weak, (Qlt_le_trans _ _ _ Hx2), pow2_le. lia.
    + assert (Ep : (pow2 (exponent y)
                    == inject_Z (2 ^ 52) * pow2 (quantum y))%Q).
      { rewrite <- pow2_Z by lia. rewrite <- pow2_add. f_equiv. lia. }
      rewrite Ep. apply binary64_ge_multiple; [done|]. now rewrite <- Ep.
Qed.

(** The rounding error: at most one part in [2^53] of the number, or
    [2^-1075] for the smallest numbers. *)
Lemma binary64_upper (x : Q) :
  (0 <= x)%Q -> (binary64 x <= x + x * pow2 (-53) + pow2 (-1075))%Q.
Proof.
  intros Hx. destruct (Qeq_dec x 0) as [E|E].
  { rewrite binary64_0 by done. pose proof (pow2_pos (-53)).
    pose proof (pow2_pos (-1075)). nra. }
  assert (Hx' : (0 < x)%Q) by lra.
  rewrite binary64_eq by done.
  destruct (roundTiesToEven_error (x / pow2 (quantum x))) as [_ H].
  pose proof (pow2_pos (quantum x)) as Hq.
  apply (Qmult_le_compat_r _ _ (pow2 (quantum x))) in H; [|lra].
  rewrite Qmult_plus_distr_l, div_pow2_mul in H.
  assert (Hh : ((1 # 2) * pow2 (quantum x) == pow2 (quantum x - 1))%Q).
  { pose proof (pow2_succ_r (quantum x - 1)) as Hs.
    replace (quantum x - 1 + 1) with (quantum x) in Hs by lia. lra. }
  rewrite Hh in H. clear Hh.
  apply (Qle_trans _ _ _ H).
  destruct (exponent_spec x Hx') as [Hx1 _].
  rewrite (quantum_pos x Hx).
  destruct (Z.max_spec (exponent x - 52) (-1074)) as [[_ ->]|[_ ->]].
  - change (-1074 - 1) with (-1075). pose proof (pow2_pos (-53)). nra.
  - assert (Hp : (pow2 (exponent x - 52 - 1) == pow2 (exponent x) * pow2 (-53))%Q).
    { rewrite <- pow2_add. f_equiv. lia. }
    rewrite Hp. pose proof (pow2_pos (-53)). pose proof (pow2_pos (-1075)). nra.
Qed.

(** Integers below [2^53] are Numbers. *)
Lemma binary64_Z (n : Z) :
  0 <= n < 2 ^ 53 -> (binary64 (inject_Z n) == inject_Z n)%Q.
Proof.
  intros [H0 H1]. destruct (Z.eq_dec n 0) as [->|Hn]; [reflexivity|].
  assert (Hx : (0 < inject_Z n)%Q) by (apply inject_Z_pos; lia).
  destruct (exponent_spec (inject_Z n) Hx) as [He1 He2].
  set (e := exponent (inject_Z n)) in *.
  assert (He : 0 <= e < 53).
  { split.
    - assert (0 < e + 1); [|lia]. apply pow2_lt_inv.
      apply (Qle_lt_trans _ (inject_Z n)); [|done].
      rewrite pow2_0. apply inject_Z_ge_1. lia.
    - apply pow2_lt_inv. apply (Qle_lt_trans _ (inject_Z n)); [done|].
      rewrite (pow2_Z 53) by lia. rewrite <- Zlt_Qlt. done. }
  assert (Hq : quantum (inject_Z n) = e - 52).
  { rewrite quantum_pos by lra. fold e. lia. }
  apply (binary64_multiple _ (n * 2 ^ (52 - e))). rewrite Hq.
  rewrite inject_Z_mult, <- pow2_Z by lia. rewrite <- Qmult_assoc, <- pow2_add.
  replace (52 - e + (e - 52)) with 0 by lia. rewrite pow2_0. ring.
Qed.

(** The largest Number below 1 is [1 - 2^-53]. *)
Lemma binary64_below_1 (r : Q) :
  (binary64 r == r)%Q -> (0 <= r)%Q -> (r < 1)%Q -> (r <= 1 - pow2 (-53))%Q.
Proof.
  intros Hd H0 H1. destruct (Qeq_dec r 0) as [E|E].
  { pose proof (pow2_lt (-53) 0 ltac:(lia)) as H. rewrite pow2_0 in H. lra. }
  assert (Hr : (0 < r)%Q) by lra.
  destruct (exponent_spec r Hr) as [He1 He2].
  set (e := exponent r) in *.
  assert (He : e < 0).
  { apply pow2_lt_inv. rewrite pow2_0. lra. }
  destruct (Z.eq_dec e (-1)) as [E1|E1].
  - assert (Hq : quantum r = -53).
    { rewrite quantum_pos by lra. fold e. lia. }
    rewrite binary64_eq in Hd by done. rewrite Hq in Hd.
    set (m := roundTiesToEven (r / pow2 (-53))) in *.
    assert (Hm : m < 2 ^ 53).
    { rewrite Zlt_Qlt, <- pow2_Z by lia.
      apply (Qmult_lt_r _ _ (pow2 (-53)) (pow2_pos _)).
      rewrite <- pow2_add. change (53 + -53) with 0. rewrite pow2_0. lra. }
    assert (Hm' : (inject_Z m <= inject_Z (2 ^ 53) - 1)%Q).
    { change 1%Q with (inject_Z 1). unfold Qminus.
      rewrite <- inject_Z_opp, <- inject_Z_plus, <- Zle_Qle. lia. }
    rewrite <- pow2_Z in Hm' by lia.
    pose proof (pow2_pos (-53)) as Hp.
    assert (Hone : (pow2 53 * pow2 (-53) == 1)%Q).
    { rewrite <- pow2_add. change (53 + -53) with 0. apply pow2_0. }
    nra.
  - assert (Hh : (pow2 (e + 1) <= pow2 (-1))%Q) by (apply pow2_le; lia).
    assert (Hs : (pow2 (-53) <= pow2 (-1))%Q) by (apply pow2_le; lia).
    change (pow2 (-1)) with (1 # 2)%Q in Hh, Hs. lra.
Qed.

(** [Math.floor(Math.random() * k)] is one of [0, ..., k-1]: the product
    of a Number below 1 and [k] is rounded to a Number below [k]. *)
Lemma Number_mul_lt (r : Q) (k : Z) :
  unit_interval r -> 1 <= k -> (Number_mul r (inject_Z k) < inject_Z k)%Q.
Proof.
  intros (Hd & H0 & H1) Hk. unfold Number_mul.
  pose proof (binary64_below_1 r Hd H0 H1) as Hr.
  assert (Hk' : (1 <= inject_Z k)%Q) by (apply inject_Z_ge_1; lia).
  pose proof (binary64_upper (r * inject_Z k) ltac:(nra)) as H.
  apply (Qle_lt_trans _ _ _ H).
  pose proof (pow2_pos (-53)) as Hp.
  pose proof (pow2_pos (-1075)) as Hs.
  assert (Hsq : (pow2 (-1075) < pow2 (-53) * pow2 (-53))%Q).
  { rewrite <- pow2_add. apply pow2_lt. lia. }
  set (u := pow2 (-53)) in *. set (s := pow2 (-1075)) in *.
  set (K := inject_Z k) in *.
  assert (Hb : (r * K <= (1 - u) * K)%Q) by nra.
  assert (Hc : (r * K * u <= (1 - u) * K * u)%Q) by nra.
  assert (Hd' : (s < u * u * K)%Q) by nra.
  nra.
Qed.

Lemma Number_mul_nonneg (r : Q) (k : Z) :
  unit_interval r -> 0 <= k -> (0 <= Number_mul r (inject_Z k))%Q.
Proof.
  intros (_ & H0 & _) Hk. apply binary64_nonneg.
  pose proof (inject_Z_nonneg k Hk). nra.
Qed.

Lemma Math_floor_lt (x : Q) (k : Z) : (x < inject_Z k)%Q -> Math_floor x < k.
Proof.
  intros H. unfold Math_floor. pose proof (Qfloor_le x) as Hf.
  rewrite Zlt_Qlt. lra.
Qed.

Lemma Math_floor_ge (x : Q) (k : Z) : (inject_Z k <= x)%Q -> k <= Math_floor x.
Proof.
  intros H. unfold Math_floor. rewrite <- (Qfloor_Z k).
  now apply Qfloor_resp_le.
Qed.

Lemma Math_floor_scaled_range (r : Q) (k : Z) :
  unit_interval r -> 0 < k -> 0 <= Math_floor (Number_mul r (inject_Z k)) < k.
Proof.
  intros Hr Hk. split.
  - apply Math_floor_ge. apply Number_mul_nonneg; [done | lia].
  - apply Math_floor_lt. apply Number_mul_lt; [done | lia].
Qed.

Lemma Math_floor_scaled_zero (r : Q) :
  Math_floor (Number_mul r (inject_Z 0)) = 0.
Proof.
  unfold Number_mul. rewrite binary64_0; [reflexivity|].
  change (inject_Z 0) with 0%Q. ring.
Qed.

Lemma Math_floor_scaled_nonneg (r : Q) (k : Z) :
  unit_interval r -> 0 <= k -> 0 <= Math_floor (Number_mul r (inject_Z k)).
Proof.
  intros Hr Hk. apply Math_floor_ge. now apply Number_mul_nonneg.
Qed.

(** The random results that give at least [u]: those from [u/k] on, up
    to the rounding of the product. *)
Lemma Math_floor_scaled_ge (r : Q) (k u : Z) :
  (0 <= r)%Q -> 0 <= u < 2 ^ 53 ->
  (inject_Z u <= r * inject_Z k)%Q ->
  u <= Math_floor (Number_mul r (inject_Z k)).
Proof.
  intros Hr Hu H. apply Math_floor_ge. unfold Number_mul.
  rewrite <- (binary64_Z u Hu).
  apply binary64_mono; [|done]. apply inject_Z_nonneg. lia.
Qed.

Lemma Math_floor_scaled_ge_inv (r : Q) (k u : Z) :
  (0 <= r)%Q -> 0 <= k ->
  u <= Math_floor (Number_mul r (inject_Z k)) ->
  (inject_Z u <= r * inject_Z k * (1 + pow2 (-53)))%Q.
Proof.
  intros Hr Hk H.
  pose proof (inject_Z_nonneg k Hk) as HK.
  assert (Hx : (0 <= r * inject_Z k)%Q) by nra.
  pose proof (pow2_pos (-53)) as Hp.
  destruct (Z_le_gt_dec u 0) as [Hu|Hu].
  { pose proof (inject_Z_nonpos u Hu). nra. }
  assert (H1 : (inject_Z u <= Number_mul r (inject_Z k))%Q).
  { apply (Qle_trans _ (inject_Z (Math_floor (Number_mul r (inject_Z k))))).
    - now rewrite <- Zle_Qle.
    - apply Qfloor_le. }
  assert (Hu1 : (1 <= inject_Z u)%Q) by (apply inject_Z_ge_1; lia).
  unfold Number_mul in H1. set (x := (r * inject_Z k)%Q) in *.
  destruct (Qeq_dec x 0) as [E|E].
  { rewrite binary64_0 in H1 by done. lra. }
  assert (Hx' : (0 < x)%Q) by lra.
  rewrite binary64_eq in H1 by done.
  destruct (roundTiesToEven_error (x / pow2 (quantum x))) as [_ He].
  pose proof (pow2_pos (quantum x)) as Hq.
  apply (Qmult_le_compat_r _ _ (pow2 (quantum x))) in He; [|lra].
  rewrite Qmult_plus_distr_l, div_pow2_mul in He.
  assert (Hh : ((1 # 2) * pow2 (quantum x) == pow2 (quantum x - 1))%Q).
  { pose proof (pow2_succ_r (quantum x - 1)) as Hs.
    replace (quantum x - 1 + 1) with (quantum x) in Hs by lia. lra. }
  rewrite Hh in He. clear Hh.
  pose proof (Qle_trans _ _ _ H1 He) as H2. clear H1 He. rename H2 into He.
  destruct (exponent_spec x Hx') as [Hx1 Hx2].
  pose proof (quantum_pos x Hx) as Eq.
  destruct (Z.max_spec (exponent x - 52) (-1074)) as [[Hc Em]|[Hc Em]];
    rewrite Em in Eq; rewrite Eq in He.
  - (* the smallest numbers are rounded to less than 1 *)
    assert (Ha : (pow2 (exponent x + 1) <= pow2 (-2))%Q) by (apply pow2_le; lia).
    assert (Hb : (pow2 (-1074 - 1) <= pow2 (-2))%Q) by (apply pow2_le; lia).
    change (pow2 (-2)) with (1 # 4)%Q in Ha, Hb. lra.
  - assert (Hp' : (pow2 (exponent x - 52 - 1) == pow2 (exponent x) * pow2 (-53))%Q).
    { rewrite <- pow2_add. f_equiv. lia. }
    rewrite Hp' in He. nra.
Qed.

(** Every [m * 2^p] with [m] below [2^53] and [p] from [-1074] on is a
    Number. *)
Lemma binary64_exact (m p : Z) :
  0 <= m < 2 ^ 53 -> -1074 <= p ->
  (binary64 (inject_Z m * pow2 p) == inject_Z m * pow2 p)%Q.
Proof.
  intros [H0 H1] Hp. destruct (Z.eq_dec m 0) as [->|Hm].
  { rewrite binary64_0; [|ring]. ring. }
  pose proof (pow2_pos p) as Hpp.
  pose proof (inject_Z_ge_1 m ltac:(lia)) as Hm1.
  set (x := (inject_Z m * pow2 p)%Q).
  assert (Hx : (0 < x)%Q) by (unfold x; nra).
  destruct (exponent_spec x Hx) as [He1 He2].
  assert (He : exponent x - 52 <= p).
  { assert (exponent x < 53 + p); [|lia]. apply pow2_lt_inv.
    apply (Qle_lt_trans _ x); [done|]. unfold x. rewrite pow2_add.
    apply Qmult_lt_compat_r; [done|]. rewrite pow2_Z by lia.
    now rewrite <- Zlt_Qlt. }
  assert (Hq : quantum x <= p) by (rewrite quantum_pos by lra; lia).
  apply (binary64_multiple _ (m * 2 ^ (p - quantum x))).
  rewrite inject_Z_mult, <- pow2_Z by lia. rewrite <- Qmult_assoc, <- pow2_add.
  unfold x at 1. f_equiv. f_equiv. lia.
Qed.

(** Every value of [0, ..., k-1] is [Math.floor(r * k)] for some random
    result [r], for a [k] up to [2^52]: the Numbers below 1 are close
    enough to one another. *)
Lemma Math_floor_scaled_onto (k u : Z) :
  0 <= u < k -> k <= 2 ^ 52 ->
  exists r, unit_interval r /\ Math_floor (Number_mul r (inject_Z k)) = u.
Proof.
  intros Hu Hk.
  set (m := (u * 2 ^ 53 + k - 1) / k).
  assert (Hm : u * 2 ^ 53 <= m * k < u * 2 ^ 53 + k).
  { unfold m. generalize (u * 2 ^ 53). intros a.
    Z.to_euclidean_division_equations. nia. }
  assert (Hm53 : 0 <= m < 2 ^ 53) by nia.
  pose proof (pow2_pos (-53)) as Hp.
  assert (Hone : (pow2 53 * pow2 (-53) == 1)%Q).
  { rewrite <- pow2_add. change (53 + -53) with 0. apply pow2_0. }
  pose proof (inject_Z_nonneg m ltac:(lia)) as Hm0.
  assert (Hmlt : (inject_Z m <= pow2 53 - 1)%Q).
  { rewrite pow2_Z by lia. change 1%Q with (inject_Z 1). unfold Qminus.
    rewrite <- inject_Z_opp, <- inject_Z_plus, <- Zle_Qle. lia. }
  assert (Hlow : (inject_Z u <= inject_Z m * pow2 (-53) * inject_Z k)%Q).
  { assert (H : (inject_Z (u * 2 ^ 53) <= inject_Z (m * k))%Q)
      by (rewrite <- Zle_Qle; lia).
    rewrite !inject_Z_mult, <- pow2_Z in H by lia.
    apply (Qmult_le_compat_r _ _ (pow2 (-53))) in H; [|lra].
    assert (E : (inject_Z u * pow2 53 * pow2 (-53) == inject_Z u)%Q)
      by (rewrite <- Qmult_assoc, Hone; ring).
    lra. }
  assert (Hhigh : (inject_Z m * pow2 (-53) * inject_Z k
                   <= inject_Z (2 * u + 1) * pow2 (-1))%Q).
  { assert (H : (inject_Z (m * k) <= inject_Z (u * 2 ^ 53 + 2 ^ 52))%Q)
      by (rewrite <- Zle_Qle; lia).
    rewrite inject_Z_plus, !inject_Z_mult, <- !pow2_Z in H by lia.
    assert (H52 : (pow2 52 * pow2 (-53) == pow2 (-1))%Q).
    { rewrite <- pow2_add. reflexivity. }
    apply (Qmult_le_compat_r _ _ (pow2 (-53))) in H; [|lra].
    rewrite Qmult_plus_distr_l, H52 in H.
    assert (E : (inject_Z u * pow2 53 * pow2 (-53) == inject_Z u)%Q)
      by (rewrite <- Qmult_assoc, Hone; ring).
    rewrite inject_Z_plus, inject_Z_mult.
    change (inject_Z 2) with 2%Q. change (inject_Z 1) with 1%Q.
    change (pow2 (-1)) with (1 # 2)%Q in *. lra. }
  exists (inject_Z m * pow2 (-53))%Q. split; [split; [|split]|].
  - apply binary64_exact; lia.
  - nra.
  - nra.
  - apply Z.le_antisymm.
    + assert (Math_floor (Number_mul (inject_Z m * pow2 (-53)) (inject_Z k))
              < u + 1); [|lia].
      apply Math_floor_lt. unfold Number_mul.
      apply (Qle_lt_trans _ (inject_Z (2 * u + 1) * pow2 (-1))).
      * rewrite <- (binary64_exact (2 * u + 1) (-1)) by lia.
        apply binary64_mono; [|done].
        apply Qmult_le_0_compat; [nra | apply inject_Z_nonneg; lia].
      * rewrite !inject_Z_plus, inject_Z_mult.
        change (inject_Z 2) with 2%Q. change (inject_Z 1) with 1%Q.
        change (pow2 (-1)) with (1 # 2)%Q. lra.
    + apply Math_floor_scaled_ge; [nra | lia | done].
Qed.

(** The random results that give at least [u], for the exact thresholds
    [u/k]: every [r] from [u/k] on gives at least [u], and an [r] that gives
    at least [u] is at least [u/k] up to the rounding of the product, one
    part in [2^53]. *)
Lemma Math_floor_scaled_threshold (r : Q) (k : positive) (u : Z) :
  unit_interval r -> Z.pos k < 2 ^ 53 ->
  ((u # k <= r)%Q -> u <= Math_floor (Number_mul r (inject_Z (Z.pos k))))
  /\ (u <= Math_floor (Number_mul r (inject_Z (Z.pos k))) ->
      (u # k <= r * (1 + pow2 (-53)))%Q).
Proof.
  intros Hr Hk. pose proof Hr as (_ & H0 & H1).
  pose proof (inject_Z_pos (Z.pos k) ltac:(lia)) as HK.
  split; intros H.
  - destruct (Z_le_gt_dec u 0) as [Hu|Hu].
    { pose proof (Math_floor_scaled_nonneg r (Z.pos k) Hr ltac:(lia)). lia. }
    rewrite Qmake_Qdiv in H.
    assert (Hm : (inject_Z u <= r * inject_Z (Z.pos k))%Q).
    { apply (Qmult_le_compat_r _ _ (inject_Z (Z.pos k))) in H; [|lra].
      unfold Qdiv in H. rewrite <- Qmult_assoc, (Qmult_comm (/ _)) in H.
      rewrite Qmult_inv_r, Qmult_1_r in H by lra. done. }
    apply Math_floor_scaled_ge; [done| |done].
    assert (inject_Z u < inject_Z (Z.pos k))%Q by nra.
    rewrite <- Zlt_Qlt in *. lia.
  - apply Math_floor_scaled_ge_inv in H; [|done|lia].
    rewrite Qmake_Qdiv. apply Qle_shift_div_r; [done|]. lra.
Qed.

(** Two products and a quotient on which the rounding shows: the exact
    products are below 4 and below 12, and the exact quotient is [5/3]. *)
Lemma Number_mul_rounded_up :
  unit_interval (2001599834386887 # 4503599627370496)
  /\ Math_floor (Number_mul (2001599834386887 # 4503599627370496) 9) = 4
  /\ Qfloor ((2001599834386887 # 4503599627370496) * 9) = 3
  /\ unit_interval (1080863910568919 # 4503599627370496)
  /\ Math_floor (Number_mul (1080863910568919 # 4503599627370496) 50) = 12
  /\ Qfloor ((1080863910568919 # 4503599627370496) * 50) = 11.
Proof. repeat split; vm_compute; (reflexivity || discriminate). Qed.

Lemma Number_div_rounded_up :
  (Number_div 5 3 == 7505999378950827 # 4503599627370496)%Q
  /\ (5 # 3 < Number_div 5 3)%Q.
Proof. split; vm_compute; reflexivity. Qed.

(** The cut, with the fraction cleared: [splice] receives the truncation
    of [(len + 2 * (U - splitError)) / 2]. *)
Lemma ToIntegerOrInfinity_cut (len : Z) (r : Q) (splitError : Z) :
  ToIntegerOrInfinity (cutDeckVariant len r splitError)
  = Z.quot (len + 2 * (Math_floor (Number_mul r 9) - splitError)) 2.
Proof.
  unfold cutDeckVariant. generalize (Math_floor (Number_mul r 9)). intros U.
  unfold ToIntegerOrInfinity, Qminus, Qplus, Qopp, inject_Z.
  simpl. f_equal. lia.
Qed.

(** ** Facts about [splice] *)

Lemma take_drop_middle_split (a d : nat) (l : elems) :
  l = take a l ++ take d (drop a l) ++ drop (a + d) l.
Proof. now rewrite <- drop_drop, !take_drop. Qed.

Lemma splice_perm_aux (a d : nat) (l items : elems) :
  take d (drop a l) ++ take a l ++ items ++ drop (a + d) l ≡ₚ l ++ items.
Proof.
  pose proof (take_drop_middle_split a d l) as E. revert E.
  generalize (take d (drop a l)) (take a l) (drop (a + d) l).
  intros p q t ->.
  rewrite Permutation_app_swap_app.
  rewrite <- !app_assoc. do 2 apply Permutation_app_head.
  apply Permutation_app_comm.
Qed.

Lemma splice_perm (l : elems) (start deleteCount : Z) (items : elems) :
  (splice l start deleteCount items).1 ++ (splice l start deleteCount items).2
  ≡ₚ l ++ items.
Proof. unfold splice. simpl. apply splice_perm_aux. Qed.

(** With [deleteCount = 0], [splice] only inserts. *)
Lemma splice_insert (l : elems) (start : Z) (items : elems) :
  (splice l start 0 items).1 = [] /\
  (splice l start 0 items).2 ≡ₚ l ++ items.
Proof.
  assert (H : (splice l start 0 items).1 = []).
  { unfold splice, actualStart. simpl. replace (Z.to_nat _) with 0%nat; [done|].
    destruct (start <? 0); lia. }
  split; [done|].
  pose proof (splice_perm l start 0 items) as P. now rewrite H in P.
Qed.

Lemma splice_length (l : elems) (start deleteCount : Z) (items : elems) :
  (length (splice l start deleteCount items).1
   + length (splice l start deleteCount items).2
   = length l + length items)%nat.
Proof.
  pose proof (splice_perm l start deleteCount items) as P.
  apply Permutation_length in P. now rewrite !length_app in P.
Qed.

(** [l.splice(0, deleteCount)] removes the first [deleteCount] elements,
    none for a negative count and all of them for a count past the end. *)
Lemma splice_front (l : elems) (deleteCount : Z) :
  let k := Z.to_nat (Z.min (Z.max deleteCount 0) (Z.of_nat (length l))) in
  splice l 0 deleteCount [] = (take k l, drop k l).
Proof.
  unfold splice, actualStart. simpl. rewrite (Z.min_l 0) by lia. simpl.
  now rewrite Z.sub_0_r.
Qed.

(** A [splice] that starts at the length of the array removes nothing. *)
Lemma splice_at_end (l : elems) (deleteCount : Z) :
  splice l (Z.of_nat (length l)) deleteCount [] = ([], l).
Proof.
  unfold splice, actualStart. simpl.
  destruct (Z.ltb_spec (Z.of_nat (length l)) 0); [lia|].
  rewrite Z.min_id, Z.sub_diag.
  replace (Z.to_nat (Z.min (Z.max deleteCount 0) 0)) with 0%nat by lia.
  rewrite Nat2Z.id, Nat.add_0_r. simpl.
  now rewrite take_drop.
Qed.

(** ** Facts about the store *)

Lemma contents_app_l (h h2 : list elems) (a : loc) :
  (a < length h)%nat -> contents (h ++ h2) a = contents h a.
Proof. intros H. unfold contents. now rewrite lookup_total_app_l. Qed.

Lemma contents_app_new (h : list elems) (v : elems) :
  contents (h ++ [v]) (length h) = v.
Proof. unfold contents. now apply list_lookup_total_middle. Qed.

Lemma contents_insert_app_new (h : list elems) (a : loc) (v w : elems) :
  contents (<[a := v]> h ++ [w]) (length h) = w.
Proof. rewrite <- (length_insert h a v). apply contents_app_new. Qed.

Lemma contents_insert_eq (h : list elems) (a : loc) (v : elems) :
  (a < length h)%nat -> contents (<[a := v]> h) a = v.
Proof. intros H. unfold contents. now apply list_lookup_total_insert_eq. Qed.

Lemma contents_insert_ne (h : list elems) (a b : loc) (v : elems) :
  a <> b -> contents (<[a := v]> h) b = contents h b.
Proof. intros H. unfold contents. now apply list_lookup_total_insert_ne. Qed.

Lemma unchanged_outside_refl (X : list loc) (h : list elems) :
  unchanged_outside X h h.
Proof. split; [lia | done]. Qed.

Lemma unchanged_outside_trans (X : list loc) (h1 h2 h3 : list elems) :
  unchanged_outside X h1 h2 -> unchanged_outside X h2 h3 ->
  unchanged_outside X h1 h3.
Proof.
  intros [L1 U1] [L2 U2]. split; [lia|].
  intros a Ha HX. rewrite U2 by (done || lia). now apply U1.
Qed.

Lemma unchanged_outside_mono (X Y : list loc) (h h' : list elems) :
  (forall a, a ∈ X -> a ∈ Y) ->
  unchanged_outside X h h' -> unchanged_outside Y h h'.
Proof.
  intros HXY [L U]. split; [done|]. intros a Ha HY. apply U; [done|].
  intros HX. apply HY. now apply HXY.
Qed.

(** The store after [a.splice(...)]: [a] is updated, the removed elements
    are a new array, everything else is as before. *)
Lemma unchanged_outside_splice (h : list elems) (a : loc) (rest removed : elems) :
  unchanged_outside [a] h (<[a := rest]> h ++ [removed]).
Proof.
  split.
  - rewrite length_app, length_insert. lia.
  - intros b Hb Hab. rewrite contents_app_l by now rewrite length_insert.
    apply contents_insert_ne. intros ->. apply Hab. now left.
Qed.

(** *** What each operation does to a state *)

Lemma run_Array_length (a : loc) (h : list elems) (c : nat) :
  Array_length a (mkState h c)
  = Some (Z.of_nat (length (contents h a)), mkState h c).
Proof. reflexivity. Qed.

Lemma run_Math_random (rnd : nat -> Q) (h : list elems) (c : nat) :
  Math_random rnd (mkState h c) = Some (rnd c, mkState h (S c)).
Proof. reflexivity. Qed.

Lemma run_spread (a : loc) (h : list elems) (c : nat) :
  spread a (mkState h c) = Some (contents h a, mkState h c).
Proof. reflexivity. Qed.

Lemma run_alloc (v : elems) (h : list elems) (c : nat) :
  alloc v (mkState h c) = Some (length h, mkState (h ++ [v]) c).
Proof. reflexivity. Qed.

Lemma run_Array_splice (a : loc) (start deleteCount : Z) (items : elems)
    (h : list elems) (c : nat) :
  Array_splice a start deleteCount items (mkState h c)
  = Some (length h,
          mkState (<[a := (splice (contents h a) start deleteCount items).2]> h
                   ++ [(splice (contents h a) start deleteCount items).1]) c).
Proof.
  unfold Array_splice. cbn [heap cursor].
  now destruct (splice (contents h a) start deleteCount items).
Qed.

Lemma run_Array_get (a : loc) (i : Z) (h : list elems) (c : nat) :
  Array_get a i (mkState h c)
  = Some (contents h a !!! Z.to_nat i, mkState h c).
Proof. reflexivity. Qed.

Lemma run_Array_set (a : loc) (i v : Z) (h : list elems) (c : nat) :
  Array_set a i v (mkState h c)
  = Some (tt, mkState (<[a := <[Z.to_nat i := v]> (contents h a)]> h) c).
Proof. reflexivity. Qed.

Create Rewrite HintDb js_run.
#[global] Hint Rewrite run_Array_length run_Math_random run_spread run_alloc
  run_Array_splice run_Array_get run_Array_set : js_run.

(** Runs the operations at the head of a computation. *)
Ltac js_run := unfold bind; autorewrite with js_run.

Section Refinement.

Variable rnd : nat -> Q.

(** One iteration of the loop on the store. *)
Lemma interleave_body_run (deck leftHalf : loc)
    (packetError leftCount rightCount : Z) (h : list elems) (c : nat) :
  deck <> leftHalf ->
  (deck < length h)%nat -> (leftHalf < length h)%nat ->
  exists h',
    interleave_body rnd deck leftHalf packetError leftCount rightCount
      (mkState h c)
    = Some ((body_model rnd packetError c (contents h deck)
               (contents h leftHalf) leftCount rightCount).1.2,
            (body_model rnd packetError c (contents h deck)
               (contents h leftHalf) leftCount rightCount).2,
            mkState h' (S (S c)))
    /\ contents h' deck
       = (body_model rnd packetError c (contents h deck)
            (contents h leftHalf) leftCount rightCount).1.1.1
    /\ contents h' leftHalf
       = (body_model rnd packetError c (contents h deck)
            (contents h leftHalf) leftCount rightCount).1.1.2
    /\ unchanged_outside [deck; leftHalf] h h'.
Proof.
  intros Hne Hd Hl.
  unfold interleave_body, body_model, bind.
  rewrite run_Math_random, run_Array_splice, run_spread.
  change (Math_floor (Number_mul (rnd c) (inject_Z packetError)))
    with (takeAmount_at rnd packetError c).
  set (t := takeAmount_at rnd packetError c).
  set (L' := (splice (contents h leftHalf) leftCount t []).2).
  set (packet := (splice (contents h leftHalf) leftCount t []).1).
  rewrite contents_insert_app_new, run_Array_splice.
  rewrite (contents_app_l _ _ deck) by now rewrite length_insert.
  rewrite contents_insert_ne by done.
  set (D' := (splice (contents h deck) rightCount 0 packet).2).
  rewrite run_Math_random. cbn [fst snd ret].
  eexists. split; [reflexivity|].
  assert (Hlen1 : length (<[leftHalf := L']> h ++ [packet]) = S (length h)).
  { rewrite length_app, length_insert. simpl. lia. }
  split; [|split].
  - rewrite contents_app_l by (rewrite length_insert; lia).
    apply contents_insert_eq. lia.
  - rewrite contents_app_l by (rewrite length_insert; lia).
    rewrite contents_insert_ne by done.
    rewrite contents_app_l by now rewrite length_insert.
    now apply contents_insert_eq.
  - apply unchanged_outside_trans with (<[leftHalf := L']> h ++ [packet]).
    + eapply unchanged_outside_mono; [|apply unchanged_outside_splice].
      intros a Ha. apply list_elem_of_singleton in Ha as ->. right. now left.
    + eapply unchanged_outside_mono; [|apply unchanged_outside_splice].
      intros a Ha. apply list_elem_of_singleton in Ha as ->. now left.
Qed.

Lemma interleave_run (budget : nat) :
  forall (deck leftHalf : loc) (packetError leftCount rightCount : Z)
         (h : list elems) (c : nat),
    deck <> leftHalf ->
    (deck < length h)%nat -> (leftHalf < length h)%nat ->
    match interleave_model rnd budget packetError c
            (contents h deck) (contents h leftHalf) leftCount rightCount with
    | None =>
        interleave rnd budget deck leftHalf packetError leftCount rightCount
          (mkState h c) = None
    | Some (D', L', rightCount', c') =>
        exists h',
          interleave rnd budget deck leftHalf packetError leftCount rightCount
            (mkState h c) = Some (rightCount', mkState h' c')
          /\ contents h' deck = D' /\ contents h' leftHalf = L'
          /\ unchanged_outside [deck; leftHalf] h h'
    end.
Proof.
  induction budget as [|budget IH]; intros deck leftHalf pe lc rc h c Hne Hd Hl;
    cbn [interleave interleave_model]; destruct (0 <? lc) eqn:Elc.
  - done.
  - exists h. repeat split; done.
  - destruct (interleave_body_run deck leftHalf pe lc rc h c Hne Hd Hl)
      as (h1 & Hrun & HD & HL & HU).
    unfold bind. rewrite Hrun. clear Hrun.
    destruct (body_model rnd pe c _ _ lc rc) as [[[D1 L1] lc1] rc1].
    cbn [fst snd] in *.
    specialize (IH deck leftHalf pe lc1 rc1 h1 (S (S c)) Hne).
    rewrite HD, HL in IH.
    destruct (interleave_model _ _ _ _ _ _ _ _) as [[[[D2 L2] rc2] c2]|].
    + destruct IH as (h' & Hrun' & HD2 & HL2 & HU2); try (destruct HU; lia).
      exists h'. repeat split; try done;
        apply (unchanged_outside_trans _ _ _ _ HU HU2).
    + apply IH; destruct HU; lia.
  - exists h. repeat split; done.
Qed.

Lemma repetition_run (budget : nat) (deck : loc) (splitError packetError : Z)
    (h : list elems) (c : nat) :
  (deck < length h)%nat ->
  match repetition_model rnd budget splitError packetError c (contents h deck) with
  | None =>
      repetition rnd budget deck splitError packetError (mkState h c) = None
  | Some (D', c') =>
      exists h',
        repetition rnd budget deck splitError packetError (mkState h c)
        = Some (tt, mkState h' c')
        /\ contents h' deck = D' /\ unchanged_outside [deck] h h'
  end.
Proof.
  intros Hd.
  unfold repetition, repetition_model, splitDeck, split_model, flush, bind.
  rewrite run_Array_length, run_Math_random, run_Array_splice.
  destruct (splice (contents h deck) 0 _ []) as [L D1] eqn:ES.
  cbn [fst snd].
  set (h1 := <[deck := D1]> h ++ [L]).
  assert (HL : contents h1 (length h) = L) by apply contents_insert_app_new.
  assert (HD : contents h1 deck = D1).
  { unfold h1. rewrite contents_app_l by now rewrite length_insert.
    now apply contents_insert_eq. }
  assert (Hlen : length h1 = S (length h)).
  { unfold h1. rewrite length_app, length_insert. simpl. lia. }
  rewrite !run_Array_length, run_Math_random, HL, HD.
  pose proof (interleave_run budget deck (length h) packetError
                (Z.of_nat (length L))
                (Z.of_nat (length D1)
                 - Math_floor (Number_mul (rnd (S c)) (inject_Z splitError)))
                h1 (S (S c)) ltac:(lia) ltac:(lia) ltac:(lia)) as IR.
  rewrite HL, HD in IR.
  destruct (interleave_model _ _ _ _ _ _ _ _) as [[[[D2 L2] rc2] c2]|].
  - destruct IR as (h2 & -> & HD2 & HL2 & [Hlen2 HU2]).
    rewrite run_spread, run_Array_splice, HD2, HL2.
    eexists. split; [reflexivity|]. split.
    + rewrite contents_app_l by (rewrite length_insert; lia).
      apply contents_insert_eq. lia.
    + split.
      * rewrite length_app, length_insert. lia.
      * intros a Ha Hna.
        assert (a <> deck) by (intros ->; apply Hna; now left).
        rewrite contents_app_l by (rewrite length_insert; lia).
        rewrite contents_insert_ne by done.
        rewrite HU2.
        -- unfold h1. rewrite contents_app_l by now rewrite length_insert.
           now apply contents_insert_ne.
        -- lia.
        -- intros [->|Hin%list_elem_of_singleton]%elem_of_cons; [done|lia].
  - now rewrite IR.
Qed.

Lemma repetitions_loop_run (repetitions : nat) :
  forall (budget : nat) (deck : loc) (splitError packetError : Z)
         (h : list elems) (c : nat),
    (deck < length h)%nat ->
    match riffle_model rnd budget repetitions splitError packetError c
            (contents h deck) with
    | None =>
        repetitions_loop rnd budget deck repetitions splitError packetError
          (mkState h c) = None
    | Some (D', c') =>
        exists h',
          repetitions_loop rnd budget deck repetitions splitError packetError
            (mkState h c) = Some (tt, mkState h' c')
          /\ contents h' deck = D' /\ unchanged_outside [deck] h h'
    end.
Proof.
  induction repetitions as [|n IH]; intros budget deck se pe h c Hd;
    cbn [repetitions_loop riffle_model].
  - exists h. repeat split; done.
  - pose proof (repetition_run budget deck se pe h c Hd) as R.
    unfold bind.
    destruct (repetition_model _ _ _ _ _ _) as [[D1 c1]|].
    + destruct R as (h1 & -> & HD1 & HU1).
      specialize (IH budget deck se pe h1 c1).
      rewrite HD1 in IH.
      destruct (riffle_model _ _ _ _ _ _ _) as [[D2 c2]|].
      * destruct IH as (h2 & -> & HD2 & HU2); [destruct HU1; lia|].
        exists h2. repeat split; try done; apply (unchanged_outside_trans _ _ _ _ HU1 HU2).
      * apply IH. destruct HU1; lia.
    + now rewrite R.
Qed.

(** [riffleShuffle] on the store: it returns a new array, whose contents are
    what the model computes from the contents of [deckInput], and it leaves
    every array that existed before the call as it was. *)
Lemma riffleShuffle_run (budget : nat) (deckInput : loc) (repetitions : nat)
    (splitError packetError : Z) (h : list elems) (c : nat) :
  match riffle_model rnd budget repetitions splitError packetError c
          (contents h deckInput) with
  | None =>
      riffleShuffle rnd budget deckInput repetitions splitError packetError
        (mkState h c) = None
  | Some (D', c') =>
      exists h',
        riffleShuffle rnd budget deckInput repetitions splitError packetError
          (mkState h c) = Some (length h, mkState h' c')
        /\ contents h' (length h) = D' /\ unchanged_outside [] h h'
  end.
Proof.
  unfold riffleShuffle, bind. rewrite run_spread, run_alloc.
  pose proof (repetitions_loop_run repetitions budget (length h) splitError
                packetError (h ++ [contents h deckInput]) c) as R.
  rewrite contents_app_new in R.
  destruct (riffle_model _ _ _ _ _ _ _) as [[D' c']|].
  - destruct R as (h' & -> & HD & [Hlen HU]).
    { rewrite length_app. simpl. lia. }
    exists h'. split; [done|]. split; [done|]. split.
    + rewrite length_app in Hlen. lia.
    + intros a Ha _. rewrite HU.
      * now apply contents_app_l.
      * rewrite length_app. lia.
      * intros Hin%list_elem_of_singleton. lia.
  - rewrite R; [done|]. rewrite length_app. simpl. lia.
Qed.

End Refinement.

(** ** Properties of the model *)

Section ModelFacts.

Variable rnd : nat -> Q.

(** *** The cards are conserved *)

Lemma body_model_perm (packetError : Z) (c : nat) (D L : elems)
    (leftCount rightCount : Z) :
  let r := body_model rnd packetError c D L leftCount rightCount in
  r.1.1.1 ++ r.1.1.2 ≡ₚ D ++ L.
Proof.
  unfold body_model. cbn [fst snd].
  set (t := takeAmount_at rnd packetError c).
  destruct (splice_insert D rightCount (splice L leftCount t []).1) as [_ ->].
  rewrite <- app_assoc. apply Permutation_app_head.
  rewrite splice_perm. now rewrite app_nil_r.
Qed.

Lemma interleave_model_perm (budget : nat) :
  forall (packetError : Z) (c : nat) (D L : elems) (leftCount rightCount : Z)
         (D' L' : elems) (rightCount' : Z) (c' : nat),
    interleave_model rnd budget packetError c D L leftCount rightCount
    = Some (D', L', rightCount', c') ->
    D' ++ L' ≡ₚ D ++ L.
Proof.
  induction budget as [|budget IH]; intros pe c D L lc rc D' L' rc' c';
    cbn [interleave_model]; destruct (0 <? lc); try discriminate;
    try (intros [= <- <- <- <-]; reflexivity).
  pose proof (body_model_perm pe c D L lc rc) as P.
  destruct (body_model rnd pe c D L lc rc) as [[[D1 L1] lc1] rc1].
  cbn [fst snd] in P. intros H. apply IH in H. now rewrite H.
Qed.

Lemma split_model_app (splitError : Z) (c : nat) (D : elems) :
  (split_model rnd splitError c D).1 ++ (split_model rnd splitError c D).2 = D.
Proof.
  unfold split_model. rewrite splice_front. cbn [fst snd]. apply take_drop.
Qed.

Lemma repetition_model_perm (budget : nat) (splitError packetError : Z)
    (c : nat) (D D' : elems) (c' : nat) :
  repetition_model rnd budget splitError packetError c D = Some (D', c') ->
  D' ≡ₚ D.
Proof.
  unfold repetition_model.
  pose proof (split_model_app splitError c D) as HS.
  destruct (split_model rnd splitError c D) as [L D1]. cbn [fst snd] in HS.
  destruct (interleave_model _ _ _ _ _ _ _ _) as [[[[D2 L2] rc2] c2]|] eqn:EI;
    [|discriminate].
  intros [= <- <-]. apply interleave_model_perm in EI.
  destruct (splice_insert D2 rc2 L2) as [_ ->].
  rewrite EI, <- HS. apply Permutation_app_comm.
Qed.

Lemma riffle_model_perm (repetitions : nat) :
  forall (budget : nat) (splitError packetError : Z) (c : nat) (D D' : elems)
         (c' : nat),
    riffle_model rnd budget repetitions splitError packetError c D
    = Some (D', c') ->
    D' ≡ₚ D.
Proof.
  induction repetitions as [|n IH]; intros budget se pe c D D' c';
    cbn [riffle_model].
  - now intros [= <- <-].
  - destruct (repetition_model _ _ _ _ _ _) as [[D1 c1]|] eqn:ER; [|discriminate].
    intros H. apply IH in H. apply repetition_model_perm in ER.
    now rewrite H.
Qed.

(** *** A larger budget does not change a result *)

Lemma interleave_model_budget (budget : nat) :
  forall (budget' : nat) (packetError : Z) (c : nat) (D L : elems)
         (leftCount rightCount : Z) r,
    interleave_model rnd budget packetError c D L leftCount rightCount = Some r ->
    (budget <= budget')%nat ->
    interleave_model rnd budget' packetError c D L leftCount rightCount = Some r.
Proof.
  induction budget as [|budget IH]; intros budget' pe c D L lc rc r;
    cbn [interleave_model].
  - destruct (0 <? lc) eqn:E; [discriminate|]. intros H _.
    destruct budget'; cbn [interleave_model]; now rewrite E.
  - destruct (0 <? lc) eqn:E.
    + intros H Hb. destruct budget' as [|budget']; [lia|].
      cbn [interleave_model]. rewrite E.
      destruct (body_model rnd pe c D L lc rc) as [[[D1 L1] lc1] rc1].
      apply IH; [done | lia].
    + intros H _. destruct budget'; cbn [interleave_model]; now rewrite E.
Qed.

Lemma repetition_model_budget (budget budget' : nat)
    (splitError packetError : Z) (c : nat) (D : elems) r :
  repetition_model rnd budget splitError packetError c D = Some r ->
  (budget <= budget')%nat ->
  repetition_model rnd budget' splitError packetError c D = Some r.
Proof.
  unfold repetition_model. destruct (split_model rnd splitError c D) as [L D1].
  destruct (interleave_model rnd budget _ _ _ _ _ _) as [x|] eqn:EI; [|discriminate].
  intros H Hb. now rewrite (interleave_model_budget _ _ _ _ _ _ _ _ _ EI Hb).
Qed.

Lemma riffle_model_budget (repetitions : nat) :
  forall (budget budget' : nat) (splitError packetError : Z) (c : nat)
         (D : elems) r,
    riffle_model rnd budget repetitions splitError packetError c D = Some r ->
    (budget <= budget')%nat ->
    riffle_model rnd budget' repetitions splitError packetError c D = Some r.
Proof.
  induction repetitions as [|n IH]; intros budget budget' se pe c D r;
    cbn [riffle_model]; [done|].
  destruct (repetition_model rnd budget _ _ _ _) as [[D1 c1]|] eqn:ER; [|discriminate].
  intros H Hb. rewrite (repetition_model_budget _ _ _ _ _ _ _ ER Hb).
  now apply IH with budget.
Qed.

(** *** When the loop ends *)

Lemma body_model_leftCount (packetError : Z) (c : nat) (D L : elems)
    (leftCount rightCount : Z) :
  (body_model rnd packetError c D L leftCount rightCount).1.2
  = leftCount - takeAmount_at rnd packetError c.
Proof. reflexivity. Qed.


(** If no packet drawn has a negative size and packets of at least one card
    keep being drawn, the loop ends. *)
Lemma interleave_model_terminates (packetError : Z) :
  (forall n, 0 <= takeAmount_at rnd packetError n) ->
  (forall n, exists k, 1 <= takeAmount_at rnd packetError (n + 2 * k)) ->
  forall (m : nat) (c : nat) (D L : elems) (leftCount rightCount : Z),
    leftCount <= Z.of_nat m ->
    exists budget,
      is_Some (interleave_model rnd budget packetError c D L leftCount rightCount).
Proof.
  intros Hnn Hprog. induction m as [|m IHm].
  - intros c D L lc rc Hlc. exists 0%nat. cbn [interleave_model].
    destruct (Z.ltb_spec 0 lc); [lia | done].
  - assert (Hk : forall k c D L lc rc,
               lc <= Z.of_nat (S m) ->
               1 <= takeAmount_at rnd packetError (c + 2 * k) ->
               exists budget,
                 is_Some (interleave_model rnd budget packetError c D L lc rc)).
    { induction k as [|k IHk]; intros c D L lc rc Hlc Ht.
      - destruct (Z.ltb_spec 0 lc) as [Hpos|Hneg].
        + pose proof (body_model_leftCount packetError c D L lc rc) as E.
          destruct (body_model rnd packetError c D L lc rc)
            as [[[D1 L1] lc1] rc1] eqn:EB.
          cbn [fst snd] in E. rewrite Nat.add_0_r in Ht.
          destruct (IHm (S (S c)) D1 L1 lc1 rc1) as [b Hb]; [lia|].
          exists (S b). cbn [interleave_model].
          destruct (Z.ltb_spec 0 lc); [|lia]. now rewrite EB.
        + exists 0%nat. cbn [interleave_model].
          destruct (Z.ltb_spec 0 lc); [lia | done].
      - destruct (Z.ltb_spec 0 lc) as [Hpos|Hneg].
        + pose proof (body_model_leftCount packetError c D L lc rc) as E.
          destruct (body_model rnd packetError c D L lc rc)
            as [[[D1 L1] lc1] rc1] eqn:EB.
          cbn [fst snd] in E. specialize (Hnn c).
          destruct (IHk (S (S c)) D1 L1 lc1 rc1) as [b Hb]; [lia | |].
          { now replace (S (S c) + 2 * k)%nat with (c + 2 * S k)%nat by lia. }
          exists (S b). cbn [interleave_model].
          destruct (Z.ltb_spec 0 lc); [|lia]. now rewrite EB.
        + exists 0%nat. cbn [interleave_model].
          destruct (Z.ltb_spec 0 lc); [lia | done]. }
    intros c D L lc rc Hlc. destruct (Hprog c) as [k Hk'].
    now apply (Hk k).
Qed.

(** If every packet drawn is empty, the loop does not end. *)
Lemma interleave_model_stalls (budget : nat) :
  forall (packetError : Z) (c : nat) (D L : elems) (leftCount rightCount : Z),
    (forall k, takeAmount_at rnd packetError (c + 2 * k) <= 0) ->
    0 < leftCount ->
    interleave_model rnd budget packetError c D L leftCount rightCount = None.
Proof.
  induction budget as [|budget IH]; intros pe c D L lc rc Ht Hlc;
    cbn [interleave_model]; destruct (Z.ltb_spec 0 lc); try done; try lia.
  pose proof (body_model_leftCount pe c D L lc rc) as E.
  destruct (body_model rnd pe c D L lc rc) as [[[D1 L1] lc1] rc1].
  cbn [fst snd] in E. apply IH.
  - intros k. replace (S (S c) + 2 * k)%nat with (c + 2 * S k)%nat by lia.
    apply Ht.
  - specialize (Ht 0%nat). rewrite Nat.add_0_r in Ht. lia.
Qed.

(** A repetition whose left half is not empty does not end when every
    packet that its loop draws is empty. *)
Lemma repetition_model_stalls (budget : nat) (splitError packetError : Z)
    (c : nat) (D : elems) :
  (forall k, takeAmount_at rnd packetError (S (S c) + 2 * k) <= 0) ->
  (split_model rnd splitError c D).1 <> [] ->
  repetition_model rnd budget splitError packetError c D = None.
Proof.
  intros Ht HL. unfold repetition_model.
  destruct (split_model rnd splitError c D) as [L D1]. cbn [fst] in HL.
  rewrite interleave_model_stalls; [done | done |].
  destruct L; [done | cbn [length]; lia].
Qed.

Lemma repetition_model_terminates (splitError packetError : Z) :
  (forall n, 0 <= takeAmount_at rnd packetError n) ->
  (forall n, exists k, 1 <= takeAmount_at rnd packetError (n + 2 * k)) ->
  forall (c : nat) (D : elems),
    exists budget,
      is_Some (repetition_model rnd budget splitError packetError c D).
Proof.
  intros Hnn Hprog c D. unfold repetition_model.
  destruct (split_model rnd splitError c D) as [L D1].
  destruct (interleave_model_terminates packetError Hnn Hprog (length L)
              (S (S c)) D1 L (Z.of_nat (length L))
              (Z.of_nat (length D1)
               - Math_floor (Number_mul (rnd (S c)) (inject_Z splitError))))
    as [b [[[[D2 L2] rc2] c2] Hb]]; [lia|].
  exists b. now rewrite Hb.
Qed.

Lemma riffle_model_terminates (splitError packetError : Z) :
  (forall n, 0 <= takeAmount_at rnd packetError n) ->
  (forall n, exists k, 1 <= takeAmount_at rnd packetError (n + 2 * k)) ->
  forall (repetitions : nat) (c : nat) (D : elems),
    exists budget,
      is_Some (riffle_model rnd budget repetitions splitError packetError c D).
Proof.
  intros Hnn Hprog. induction repetitions as [|n IH]; intros c D.
  - exists 0%nat. now cbn.
  - destruct (repetition_model_terminates splitError packetError Hnn Hprog c D)
      as [b1 [[D1 c1] H1]].
    destruct (IH c1 D1) as [b2 [r H2]].
    exists (Nat.max b1 b2). cbn [riffle_model].
    rewrite (repetition_model_budget _ _ _ _ _ _ _ H1 (Nat.le_max_l b1 b2)).
    rewrite (riffle_model_budget _ _ _ _ _ _ _ _ H2 (Nat.le_max_r b1 b2)).
    done.
Qed.

End ModelFacts.

(** ** riffleShuffle: results *)

Lemma riffleShuffle_result (rnd : nat -> Q) (budget : nat) (deckInput : loc)
    (repetitions : nat) (splitError packetError : Z) (st st' : state) (out : loc) :
  riffleShuffle rnd budget deckInput repetitions splitError packetError st
  = Some (out, st') ->
  riffle_model rnd budget repetitions splitError packetError (cursor st)
    (contents (heap st) deckInput)
  = Some (contents (heap st') out, cursor st')
  /\ out = length (heap st)
  /\ unchanged_outside [] (heap st) (heap st').
Proof.
  destruct st as [h c]. cbn [heap cursor].
  pose proof (riffleShuffle_run rnd budget deckInput repetitions splitError
                packetError h c) as R.
  destruct (riffle_model _ _ _ _ _ _ _) as [[D' c']|].
  - destruct R as (h' & -> & HD & HU). intros [= <- <-]. cbn [heap cursor].
    now rewrite HD.
  - rewrite R. discriminate.
Qed.

Lemma riffleShuffle_no_result (rnd : nat -> Q) (budget : nat) (deckInput : loc)
    (repetitions : nat) (splitError packetError : Z) (st : state) :
  riffle_model rnd budget repetitions splitError packetError (cursor st)
    (contents (heap st) deckInput) = None ->
  riffleShuffle rnd budget deckInput repetitions splitError packetError st = None.
Proof.
  destruct st as [h c]. cbn [heap cursor]. intros E.
  pose proof (riffleShuffle_run rnd budget deckInput repetitions splitError
                packetError h c) as R.
  now rewrite E in R.
Qed.

Lemma riffleShuffle_returns (rnd : nat -> Q) (budget : nat) (deckInput : loc)
    (repetitions : nat) (splitError packetError : Z) (st : state) :
  is_Some (riffle_model rnd budget repetitions splitError packetError (cursor st)
             (contents (heap st) deckInput)) ->
  exists out st',
    riffleShuffle rnd budget deckInput repetitions splitError packetError st
    = Some (out, st').
Proof.
  destruct st as [h c]. cbn [heap cursor]. intros [[D' c'] E].
  pose proof (riffleShuffle_run rnd budget deckInput repetitions splitError
                packetError h c) as R.
  rewrite E in R. destruct R as (h' & -> & _). eauto.
Qed.

Lemma takeAmount_at_nonneg (rnd : nat -> Q) (packetError : Z) :
  (forall n, unit_interval (rnd n)) -> 0 <= packetError ->
  forall n, 0 <= takeAmount_at rnd packetError n.
Proof. intros Hr Hpe n. now apply Math_floor_scaled_nonneg. Qed.

Lemma always_half_unit_interval (n : nat) : unit_interval (always_half n).
Proof.
  split; [|split]; vm_compute; [reflexivity | discriminate | reflexivity].
Defined.

Lemma simulateFixed_unchanged (rnd : nat -> Q) (trials : nat) :
  forall (budget : nat) (template : loc) (shuffledArrays : list loc)
         (st : state) (arrays : list loc) (st' : state),
    simulateFixed rnd budget template trials shuffledArrays st
    = Some (arrays, st') ->
    unchanged_outside [] (heap st) (heap st').
Proof.
  induction trials as [|n IH]; intros budget template acc st arrays st';
    cbn [simulateFixed].
  - intros [= <- <-]. apply unchanged_outside_refl.
  - unfold bind.
    destruct (riffleShuffle _ _ _ _ _ _ st) as [[out st1]|] eqn:ER; [|discriminate].
    intros H. apply IH in H. apply riffleShuffle_result in ER as (_ & _ & HU).
    apply (unchanged_outside_trans _ _ _ _ HU H).
Qed.

(** ** The cut *)

Lemma splitDeck_run (rnd : nat -> Q) (deck : loc) (splitError : Z)
    (h : list elems) (c : nat) :
  splitDeck rnd deck splitError (mkState h c)
  = Some (length h,
          mkState (<[deck := (split_model rnd splitError c (contents h deck)).2]> h
                   ++ [(split_model rnd splitError c (contents h deck)).1])
                  (S c)).
Proof.
  unfold splitDeck, split_model. now js_run.
Qed.

Lemma split_model_take_drop (rnd : nat -> Q) (splitError : Z) (c : nat)
    (D : elems) :
  let k := Z.to_nat (clamped_cut (Z.of_nat (length D)) (rnd c) splitError) in
  split_model rnd splitError c D = (take k D, drop k D).
Proof. unfold split_model. now rewrite splice_front. Qed.

Lemma splitDeck_contents (rnd : nat -> Q) (deck : loc) (splitError : Z)
    (h : list elems) (c : nat) :
  (deck < length h)%nat ->
  let k := Z.to_nat (clamped_cut (Z.of_nat (length (contents h deck)))
                       (rnd c) splitError) in
  exists h',
    splitDeck rnd deck splitError (mkState h c)
    = Some (length h, mkState h' (S c))
    /\ contents h' (length h) = take k (contents h deck)
    /\ contents h' deck = drop k (contents h deck).
Proof.
  intros Hd k. rewrite splitDeck_run. eexists. split; [reflexivity|].
  rewrite split_model_take_drop. cbn [fst snd]. fold k. split.
  - apply contents_insert_app_new.
  - rewrite contents_app_l by now rewrite length_insert.
    now apply contents_insert_eq.
Qed.

(** [splice] sees a count only through its clamped value. *)
Lemma splice_front_clamped (l : elems) (deleteCount : Z) :
  splice l 0 deleteCount []
  = splice l 0 (Z.min (Z.max deleteCount 0) (Z.of_nat (length l))) [].
Proof.
  rewrite !splice_front. do 3 f_equal; lia.
Qed.

Lemma repetition_length (rnd : nat -> Q) (budget : nat) (deck : loc)
    (splitError packetError : Z) (st st' : state) :
  (deck < length (heap st))%nat ->
  repetition rnd budget deck splitError packetError st = Some (tt, st') ->
  contents (heap st') deck ≡ₚ contents (heap st) deck.
Proof.
  destruct st as [h c]. cbn [heap]. intros Hd H.
  pose proof (repetition_run rnd budget deck splitError packetError h c Hd) as R.
  destruct (repetition_model _ _ _ _ _ _) as [[D' c']|] eqn:E.
  - destruct R as (h' & R & HD & _). rewrite R in H. injection H as <-.
    cbn [heap]. rewrite HD. now apply repetition_model_perm in E.
  - rewrite R in H. discriminate.
Qed.

(** ** The interleave loop *)

Lemma splice_insert_block (l : elems) (start : Z) (items : elems) :
  let a := Z.to_nat (actualStart (Z.of_nat (length l)) start) in
  (splice l start 0 items).2 = take a l ++ items ++ drop a l.
Proof.
  unfold splice. cbn [snd].
  replace (Z.to_nat (Z.min (Z.max 0 0) _)) with 0%nat.
  - now rewrite Nat.add_0_r.
  - unfold actualStart. destruct (start <? 0); lia.
Qed.




(** The first iteration of the loop of any repetition, whatever packet size
    it draws, removes nothing from the left half and adds nothing to the
    deck: it starts at [leftCount = leftHalf.length]. *)
Lemma first_packet_empty (rnd : nat -> Q) (packetError : Z) (c : nat)
    (D L : elems) (rightCount : Z) :
  let r := body_model rnd packetError c D L (Z.of_nat (length L)) rightCount in
  r.1.1.1 = D /\ r.1.1.2 = L
  /\ r.1.2 = Z.of_nat (length L) - takeAmount_at rnd packetError c.
Proof.
  unfold body_model. cbn [fst snd]. rewrite splice_at_end. cbn [fst snd].
  repeat split.
  rewrite splice_insert_block. cbn [app]. apply take_drop.
Qed.

(** The first iteration of the loop of a repetition on the store: whatever
    packet size is drawn, the deck and the left half keep their contents,
    while [leftCount] decreases by the size drawn. *)
Lemma interleave_first_iteration (rnd : nat -> Q) (deck leftHalf : loc)
    (packetError rightCount : Z) (h : list elems) (c : nat) :
  deck <> leftHalf ->
  (deck < length h)%nat -> (leftHalf < length h)%nat ->
  exists rightCount' h',
    interleave_body rnd deck leftHalf packetError
      (Z.of_nat (length (contents h leftHalf))) rightCount (mkState h c)
    = Some ((Z.of_nat (length (contents h leftHalf))
             - takeAmount_at rnd packetError c, rightCount'),
            mkState h' (S (S c)))
    /\ contents h' deck = contents h deck
    /\ contents h' leftHalf = contents h leftHalf.
Proof.
  intros Hne Hd Hl.
  destruct (interleave_body_run rnd deck leftHalf packetError
              (Z.of_nat (length (contents h leftHalf))) rightCount h c
              Hne Hd Hl) as (h' & Hrun & HD & HL & _).
  destruct (first_packet_empty rnd packetError c (contents h deck)
              (contents h leftHalf) rightCount) as (ED & EL & Ec).
  cbn zeta in ED, EL, Ec. rewrite ED in HD. rewrite EL in HL.
  rewrite Ec in Hrun. eauto.
Qed.

(** ** calculateAverageDistance *)

(** The state of the scan when it reaches index [i]. *)
Lemma distance_loop_gaps (rest : elems) :
  forall i distanceSum count lastOneIndex,
    0 <= i ->
    let g :=
      if lastOneIndex =? -1 then gaps (marked_positions_from i rest)
      else gaps_after lastOneIndex (marked_positions_from i rest) in
    distance_loop rest i distanceSum count lastOneIndex
    = (distanceSum + sum_list g, count + Z.of_nat (length g)).
Proof.
  induction rest as [|x rest IH]; intros i s n last Hi;
    cbn [distance_loop marked_positions_from].
  - destruct (last =? -1); cbn; f_equal; lia.
  - destruct (x =? 1).
    + destruct (Z.eqb_spec last (-1)) as [->|Hlast]; cbn [negb].
      * rewrite IH by lia. destruct (Z.eqb_spec i (-1)); [lia|].
        reflexivity.
      * rewrite IH by lia. destruct (Z.eqb_spec i (-1)); [lia|].
        unfold sum_list. cbn [gaps_after fold_right length]. f_equal; lia.
    + rewrite IH by lia. reflexivity.
Qed.

Lemma calculateAverageDistance_eq (deck : elems) :
  calculateAverageDistance deck = averageDistance_spec deck.
Proof.
  unfold calculateAverageDistance, averageDistance_spec, marked_positions.
  rewrite distance_loop_gaps by lia. cbn [Z.eqb]. now rewrite !Z.add_0_l.
Qed.

Lemma marked_positions_from_lower (deck : elems) :
  forall i, Forall (fun p => i <= p) (marked_positions_from i deck).
Proof.
  induction deck as [|x deck IH]; intros i; cbn [marked_positions_from].
  - constructor.
  - assert (H : Forall (fun p => i <= p) (marked_positions_from (i + 1) deck)).
    { eapply Forall_impl; [apply IH|]. cbn. intros; lia. }
    destruct (x =? 1); [constructor; [lia | done] | done].
Qed.

Lemma gaps_after_nonneg (deck : elems) :
  forall i previousIndex,
    previousIndex < i ->
    0 <= sum_list (gaps_after previousIndex (marked_positions_from i deck)).
Proof.
  induction deck as [|x deck IH]; intros i prev Hlt;
    cbn [marked_positions_from].
  - cbn. lia.
  - destruct (x =? 1).
    + cbn [gaps_after sum_list fold_right].
      specialize (IH (i + 1) i ltac:(lia)). unfold sum_list in IH. lia.
    + apply IH. lia.
Qed.

Lemma gaps_nonneg (deck : elems) :
  forall i, 0 <= sum_list (gaps (marked_positions_from i deck)).
Proof.
  induction deck as [|x deck IH]; intros i; cbn [marked_positions_from].
  - cbn. lia.
  - destruct (x =? 1); [|apply IH].
    cbn [gaps]. apply gaps_after_nonneg. lia.
Qed.

Lemma quotient_nonneg (s n : Z) :
  0 <= s -> 0 < n -> (0 <= inject_Z s / inject_Z n)%Q.
Proof.
  intros Hs Hn. destruct n as [|p|p]; try lia.
  unfold Qle, Qdiv, Qmult, Qinv, inject_Z. simpl. lia.
Qed.

Lemma Number_div_nonneg (s n : Z) :
  0 <= s -> 0 < n -> (0 <= Number_div (inject_Z s) (inject_Z n))%Q.
Proof. intros Hs Hn. apply binary64_nonneg. now apply quotient_nonneg. Qed.

Lemma marked_positions_from_length (deck : elems) :
  forall i, length (marked_positions_from i deck) = count_marked deck.
Proof.
  unfold count_marked.
  induction deck as [|x deck IH]; intros i;
    cbn [marked_positions_from count_occ]; [done|].
  destruct (Z.eqb_spec x 1) as [->|Hx].
  - destruct (Z.eq_dec 1 1); [|done]. cbn [length]. now rewrite IH.
  - destruct (Z.eq_dec x 1); [done|]. apply IH.
Qed.

Lemma degenerate_gaps (positions : list Z) :
  (length positions < 2)%nat -> gaps positions = [].
Proof.
  destruct positions as [|p [|q positions]]; cbn; try done. lia.
Qed.

Lemma averages_run (shuffledArrays : list loc) (st : state) :
  averages shuffledArrays st
  = Some (map (fun a => calculateAverageDistance (contents (heap st) a))
              shuffledArrays, st).
Proof. reflexivity. Qed.

(** ** fisherYatesShuffle *)

Lemma contents_insert_id (h : list elems) (a : loc) :
  (a < length h)%nat -> <[a := contents h a]> h = h.
Proof.
  intros H. apply list_insert_id. unfold contents.
  now apply list_lookup_lookup_total_lt.
Qed.

(** The loop from position [i] down, as a fold over the positions. *)
Lemma fisherYates_loop_run (rnd : nat -> Q) (array : loc) (i : nat) :
  forall (h : list elems) (c : nat),
    (array < length h)%nat ->
    let r :=
      fold_left
        (fun lc i => (exchange lc.1 i (draw_index (rnd lc.2) i), S lc.2))
        (rev (seq 1 i)) (contents h array, c) in
    fisherYates_loop rnd array i (mkState h c)
    = Some (tt, mkState (<[array := r.1]> h) r.2).
Proof.
  induction i as [|i IH]; intros h c Ha; cbn [fisherYates_loop].
  - cbn. now rewrite contents_insert_id.
  - unfold bind.
    rewrite run_Math_random, !run_Array_get, run_Array_set.
    rewrite run_Array_set.
    rewrite contents_insert_eq by done.
    rewrite list_insert_insert_eq.
    rewrite IH by now rewrite length_insert.
    rewrite contents_insert_eq by done.
    rewrite list_insert_insert_eq.
    rewrite seq_S, rev_app_distr. cbn [rev app fold_left fst snd].
    rewrite Nat2Z.id. reflexivity.
Qed.

Lemma fisherYatesShuffle_run (rnd : nat -> Q) (array : loc) (h : list elems)
    (c : nat) :
  (array < length h)%nat ->
  fisherYatesShuffle rnd array (mkState h c)
  = Some (array,
          mkState (<[array := (fisherYates_spec rnd c (contents h array)).1]> h)
                  (fisherYates_spec rnd c (contents h array)).2).
Proof.
  intros Ha. unfold fisherYatesShuffle, bind.
  rewrite run_Array_length, fisherYates_loop_run by done.
  unfold fisherYates_spec, positions_down_to_1.
  replace (Z.to_nat (Z.of_nat (length (contents h array)) - 1))
    with (length (contents h array) - 1)%nat by lia.
  reflexivity.
Qed.

(** The index drawn at position [i] is one of [0, ..., i]. *)
Lemma draw_index_in_range (r : Q) (i : nat) :
  unit_interval r -> (draw_index r i <= i)%nat.
Proof.
  intros Hr. unfold draw_index.
  pose proof (Math_floor_scaled_range r (Z.of_nat i + 1) Hr ltac:(lia)). lia.
Qed.

(** *** Exchanges are permutations *)

Lemma count_occ_insert (l : elems) :
  forall (i : nat) (x v : Z),
    (i < length l)%nat ->
    (count_occ Z.eq_dec (<[i := x]> l) v + indicator (l !!! i) v
     = count_occ Z.eq_dec l v + indicator x v)%nat.
Proof.
  unfold indicator.
  induction l as [|y l IH]; intros i x v Hi; cbn [length] in Hi; [lia|].
  destruct i as [|i].
  - cbn. destruct (Z.eq_dec x v), (Z.eq_dec y v); lia.
  - specialize (IH i x v ltac:(lia)).
    change ((y :: l) !!! S i) with (l !!! i).
    change (<[S i := x]> (y :: l)) with (y :: <[i := x]> l).
    cbn [count_occ]. destruct (Z.eq_dec y v); [|exact IH].
    cbn [Nat.add]. f_equal. exact IH.
Qed.

Lemma exchange_perm (l : elems) (i j : nat) :
  (i < length l)%nat -> (j < length l)%nat -> exchange l i j ≡ₚ l.
Proof.
  intros Hi Hj. apply (Permutation_count_occ Z.eq_dec). intros v.
  unfold exchange.
  pose proof (count_occ_insert l i (l !!! j) v Hi) as H1.
  assert (Hj' : (j < length (<[i := l !!! j]> l))%nat)
    by now rewrite length_insert.
  pose proof (count_occ_insert (<[i := l !!! j]> l) j (l !!! i) v Hj') as H2.
  assert (E : <[i := l !!! j]> l !!! j = l !!! j).
  { destruct (Nat.eq_dec i j) as [->|Hne].
    - now rewrite list_lookup_total_insert_eq.
    - now rewrite list_lookup_total_insert_ne. }
  rewrite E in H2. lia.
Qed.

Lemma exchange_length (l : elems) (i j : nat) :
  length (exchange l i j) = length l.
Proof. unfold exchange. now rewrite !length_insert. Qed.

Lemma fisherYates_fold_perm (rnd : nat -> Q) (positions : list nat) :
  forall (l : elems) (c : nat),
    (forall n, unit_interval (rnd n)) ->
    Forall (fun i => (i < length l)%nat) positions ->
    let r :=
      fold_left
        (fun lc i => (exchange lc.1 i (draw_index (rnd lc.2) i), S lc.2))
        positions (l, c) in
    r.1 ≡ₚ l /\ r.2 = (c + length positions)%nat.
Proof.
  induction positions as [|i positions IH]; intros l c Hr Hpos;
    cbn [fold_left fst snd length].
  - split; [done | lia].
  - inversion Hpos as [|? ? Hi Hrest]; subst.
    assert (Hj : (draw_index (rnd c) i < length l)%nat).
    { pose proof (draw_index_in_range (rnd c) i (Hr c)). lia. }
    destruct (IH (exchange l i (draw_index (rnd c) i)) (S c) Hr) as [P E].
    { now rewrite exchange_length. }
    split; [|cbn zeta in E; lia].
    cbn zeta in P. rewrite P. now apply exchange_perm.
Qed.

Lemma fisherYates_spec_perm (rnd : nat -> Q) (c : nat) (l : elems) :
  (forall n, unit_interval (rnd n)) ->
  (fisherYates_spec rnd c l).1 ≡ₚ l
  /\ (fisherYates_spec rnd c l).2 = (c + (length l - 1))%nat.
Proof.
  intros Hr. unfold fisherYates_spec.
  destruct (fisherYates_fold_perm rnd (positions_down_to_1 (length l)) l c Hr)
    as [P E].
  - unfold positions_down_to_1. apply Forall_forall. intros i Hi.
    apply list_elem_of_In, in_rev, in_seq in Hi. lia.
  - split; [done|]. rewrite E. unfold positions_down_to_1.
    now rewrite length_rev, length_seq.
Qed.

(** [fisherYatesShuffle] on the store: the array is permuted where it is,
    no array is created, and no other array changes. *)
Lemma fisherYatesShuffle_store (rnd : nat -> Q) (array : loc) (st : state) :
  (array < length (heap st))%nat ->
  (forall n, unit_interval (rnd n)) ->
  exists st',
    fisherYatesShuffle rnd array st = Some (array, st')
    /\ length (heap st') = length (heap st)
    /\ contents (heap st') array ≡ₚ contents (heap st) array
    /\ (forall b, b <> array -> contents (heap st') b = contents (heap st) b).
Proof.
  destruct st as [h c]. cbn [heap]. intros Ha Hr.
  rewrite fisherYatesShuffle_run by done.
  eexists. split; [reflexivity|]. cbn [heap]. split; [|split].
  - apply length_insert.
  - rewrite contents_insert_eq by done. now apply fisherYates_spec_perm.
  - intros b Hb. now apply contents_insert_ne.
Qed.

(** *** The simulation loops *)

Lemma simulateUnordered_spec (rnd : nat -> Q) (budget : nat) (template : loc)
    (trials : nat) :
  forall (shuffledArrays : list loc) (st : state),
    simulateUnordered rnd budget template trials shuffledArrays st
    = (rest <- run_randomized_spec rnd budget template trials ;;
       ret (shuffledArrays ++ rest)) st.
Proof.
  induction trials as [|n IH]; intros acc st;
    cbn [simulateUnordered run_randomized_spec].
  - unfold bind, ret. now rewrite app_nil_r.
  - unfold bind at 1 2. unfold bind at 1 2 3.
    destruct (fisherYatesShuffle rnd template st) as [[deck st1]|]; [|done].
    destruct (riffleShuffle rnd budget deck _ _ _ st1) as [[shuffled st2]|];
      [|done].
    rewrite IH. unfold bind, ret.
    destruct (run_randomized_spec rnd budget template n st2) as [[rest st3]|];
      [|done].
    now rewrite <- app_assoc.
Qed.

Lemma simulateUnordered_template (rnd : nat -> Q) (trials : nat) :
  forall (budget : nat) (template : loc) (shuffledArrays : list loc)
         (st : state) (arrays : list loc) (st' : state),
    (template < length (heap st))%nat ->
    (forall n, unit_interval (rnd n)) ->
    simulateUnordered rnd budget template trials shuffledArrays st
    = Some (arrays, st') ->
    contents (heap st') template ≡ₚ contents (heap st) template
    /\ length arrays = (length shuffledArrays + trials)%nat
    /\ (forall b, (b < length (heap st))%nat -> b <> template ->
                  contents (heap st') b = contents (heap st) b).
Proof.
  induction trials as [|n IH];
    intros budget template acc st arrays st' Ht Hr; cbn [simulateUnordered].
  - intros [= <- <-]. split; [done|]. split; [lia | done].
  - unfold bind.
    destruct (fisherYatesShuffle_store rnd template st Ht Hr)
      as (st1 & -> & Hlen & HP & HF).
    destruct (riffleShuffle _ _ _ _ _ _ st1) as [[out st2]|] eqn:ER; [|discriminate].
    apply riffleShuffle_result in ER as (_ & _ & [Hlen2 HU]).
    intros H. apply IH in H as (HP' & Hl & HF'); [|lia|done].
    split; [|split].
    + rewrite HP', HU by (lia || apply not_elem_of_nil). exact HP.
    + rewrite Hl, length_app. cbn [length]. lia.
    + intros b Hb Hne. rewrite HF' by (lia || done).
      rewrite HU by (lia || apply not_elem_of_nil). now apply HF.
Qed.

Lemma simulateFixed_length (rnd : nat -> Q) (trials : nat) :
  forall (budget : nat) (template : loc) (shuffledArrays : list loc)
         (st : state) (arrays : list loc) (st' : state),
    simulateFixed rnd budget template trials shuffledArrays st
    = Some (arrays, st') ->
    length arrays = (length shuffledArrays + trials)%nat.
Proof.
  induction trials as [|n IH]; intros budget template acc st arrays st';
    cbn [simulateFixed].
  - intros [= <- <-]. lia.
  - unfold bind.
    destruct (riffleShuffle _ _ _ _ _ _ st) as [[out st1]|]; [|discriminate].
    intros H. apply IH in H. rewrite H, length_app. cbn [length]. lia.
Qed.

(** Every index of [0, ..., i] can be drawn at position [i] of an array
    of up to [2^52] elements. *)
Lemma draw_index_onto (i j : nat) :
  (j <= i)%nat -> Z.of_nat i < 2 ^ 52 ->
  exists r, unit_interval r /\ draw_index r i = j.
Proof.
  intros Hj Hi.
  destruct (Math_floor_scaled_onto (Z.of_nat i + 1) (Z.of_nat j))
    as (r & Hr & E); [lia | lia |].
  exists r. split; [done|]. unfold draw_index. rewrite E. apply Nat2Z.id.
Qed.

(** The random results that give an index of at least [j], for the exact
    thresholds [j/(i+1)]. *)
Lemma draw_index_threshold (r : Q) (i j : nat) :
  unit_interval r -> Z.of_nat i < 2 ^ 52 ->
  ((Z.of_nat j # Pos.of_succ_nat i <= r)%Q -> (j <= draw_index r i)%nat)
  /\ ((j <= draw_index r i)%nat ->
      (Z.of_nat j # Pos.of_succ_nat i <= r * (1 + pow2 (-53)))%Q).
Proof.
  intros Hr Hi.
  assert (E : Z.of_nat i + 1 = Z.pos (Pos.of_succ_nat i)) by lia.
  pose proof (Math_floor_scaled_nonneg r (Z.of_nat i + 1) Hr ltac:(lia)) as H0.
  destruct (Math_floor_scaled_threshold r (Pos.of_succ_nat i) (Z.of_nat j) Hr
              ltac:(lia)) as [H1 H2].
  unfold draw_index. rewrite E in *. split; intros H.
  - apply H1 in H. lia.
  - apply H2. lia.
Qed.

(** *** The whole script *)

Lemma fisherYatesShuffle_frame (rnd : nat -> Q) (array : loc) (st : state) :
  (array < length (heap st))%nat ->
  exists st',
    fisherYatesShuffle rnd array st = Some (array, st')
    /\ length (heap st') = length (heap st)
    /\ (forall b, b <> array -> contents (heap st') b = contents (heap st) b).
Proof.
  destruct st as [h c]. cbn [heap]. intros Ha.
  rewrite fisherYatesShuffle_run by done.
  eexists. split; [reflexivity|]. cbn [heap]. split.
  - apply length_insert.
  - intros b Hb. now apply contents_insert_ne.
Qed.

Lemma simulateUnordered_frame (rnd : nat -> Q) (trials : nat) :
  forall (budget : nat) (template : loc) (shuffledArrays : list loc)
         (st : state) (arrays : list loc) (st' : state),
    (template < length (heap st))%nat ->
    simulateUnordered rnd budget template trials shuffledArrays st
    = Some (arrays, st') ->
    unchanged_outside [template] (heap st) (heap st')
    /\ length arrays = (length shuffledArrays + trials)%nat.
Proof.
  induction trials as [|n IH];
    intros budget template acc st arrays st' Ht; cbn [simulateUnordered].
  - intros [= <- <-]. split; [apply unchanged_outside_refl | lia].
  - unfold bind.
    destruct (fisherYatesShuffle_frame rnd template st Ht)
      as (st1 & -> & Hlen & HF).
    destruct (riffleShuffle _ _ _ _ _ _ st1) as [[out st2]|] eqn:ER;
      [|discriminate].
    apply riffleShuffle_result in ER as (_ & _ & HU).
    intros H. apply IH in H as [HU' Hl]; [|destruct HU; lia].
    split.
    + apply unchanged_outside_trans with (heap st1).
      * split; [lia|]. intros b _ Hb. apply HF. intros ->. apply Hb. now left.
      * apply unchanged_outside_trans with (heap st2); [|done].
        eapply unchanged_outside_mono; [|exact HU]. intros a Ha.
        now apply elem_of_nil in Ha.
    + rewrite Hl, length_app. cbn [length]. lia.
Qed.

(** The script as a whole: what it leaves in the three module-level arrays
    and how many averages it computes. *)
Lemma main_run (rnd : nat -> Q) (budget : nat)
    (samples : list Q * list Q * list Q) (st' : state) :
  main rnd budget initial_state = Some (samples, st') ->
  contents (heap st') bottomStacked = bottomStacked_init
  /\ contents (heap st') piled = piled_init
  /\ ((forall n, unit_interval (rnd n)) ->
      contents (heap st') unordered ≡ₚ unordered_init)
  /\ length samples.1.1 = SIM_COUNT
  /\ length samples.1.2 = SIM_COUNT
  /\ length samples.2 = SIM_COUNT.
Proof.
  unfold main, bind. generalize SIM_COUNT. intros trials.
  destruct (simulateUnordered rnd budget unordered trials [] initial_state)
    as [[ua st1]|] eqn:E1; [|discriminate].
  rewrite averages_run.
  destruct (simulateFixed rnd budget bottomStacked trials [] st1)
    as [[ba st2]|] eqn:E2; [|discriminate].
  rewrite averages_run.
  destruct (simulateFixed rnd budget piled trials [] st2)
    as [[pa st3]|] eqn:E3; [|discriminate].
  rewrite averages_run. intros [= <- <-]. cbn [fst snd].
  assert (H0 : length (heap initial_state) = 3%nat) by reflexivity.
  pose proof (simulateUnordered_frame rnd trials budget unordered [] _ _ _
                ltac:(rewrite H0; unfold unordered; lia) E1) as [[L1 U1] N1].
  pose proof (simulateFixed_unchanged rnd trials _ _ _ _ _ _ E2) as [L2 U2].
  pose proof (simulateFixed_unchanged rnd trials _ _ _ _ _ _ E3) as [L3 U3].
  pose proof (simulateFixed_length rnd trials _ _ _ _ _ _ E2) as N2.
  pose proof (simulateFixed_length rnd trials _ _ _ _ _ _ E3) as N3.
  assert (Hin : forall b, b <> unordered -> b ∉ [unordered]).
  { intros b Hb Hin. apply list_elem_of_singleton in Hin. exact (Hb Hin). }
  rewrite H0 in *. unfold bottomStacked, piled, unordered in *.
  repeat split.
  - rewrite U3, U2, U1 by (lia || apply not_elem_of_nil || (apply Hin; lia)).
    reflexivity.
  - rewrite U3, U2, U1 by (lia || apply not_elem_of_nil || (apply Hin; lia)).
    reflexivity.
  - intros Hr.
    rewrite U3, U2 by (lia || apply not_elem_of_nil).
    pose proof (simulateUnordered_template rnd trials budget 2%nat [] _ _ _
                  ltac:(rewrite H0; lia) Hr E1) as (HP & _ & _).
    exact HP.
  - now rewrite length_map, N1.
  - now rewrite length_map, N2.
  - now rewrite length_map, N3.
Qed.

(** * The claims *)

(** ** C1: the result of riffleShuffle is a permutation of its input *)

(** C1 (as amended).  Whenever a call of [riffleShuffle] returns, the array
    it returns is a permutation of the input deck: it has the same length
    and the same multiset of markers, in particular as many cards marked 1.
    The call does return, for a large enough iteration budget, when the
    random results lie in the unit interval, [packetError] is not negative
    and, from every position of the random stream on, some draw an even
    number of positions later gives a packet of at least one card. *)
Theorem riffleShuffle_permutation (rnd : nat -> Q) (deckInput : loc)
    (repetitions : nat) (splitError packetError : Z) (st : state) :
  (forall budget out st',
      riffleShuffle rnd budget deckInput repetitions splitError packetError st
      = Some (out, st') ->
      contents (heap st') out ≡ₚ contents (heap st) deckInput
      /\ length (contents (heap st') out) = length (contents (heap st) deckInput)
      /\ count_marked (contents (heap st') out)
         = count_marked (contents (heap st) deckInput))
  /\ ((forall n, unit_interval (rnd n)) ->
      0 <= packetError ->
      (forall n, exists k, 1 <= takeAmount_at rnd packetError (n + 2 * k)) ->
      exists budget out st',
        riffleShuffle rnd budget deckInput repetitions splitError packetError st
        = Some (out, st')).
Proof.
  split.
  - intros budget out st' H.
    apply riffleShuffle_result in H as (H & _ & _).
    apply riffle_model_perm in H.
    split; [done|]. split.
    + now apply Permutation_length.
    + unfold count_marked. now apply Permutation_count_occ.
  - intros Hr Hpe Hprog.
    destruct (riffle_model_terminates rnd splitError packetError
                (takeAmount_at_nonneg rnd packetError Hr Hpe) Hprog
                repetitions (cursor st) (contents (heap st) deckInput))
      as [budget Hb].
    exists budget. now apply riffleShuffle_returns.
Qed.

(** A run of the reference configuration on the piled deck, all random
    results being one half. *)
Lemma riffleShuffle_permutation_witness :
  (exists out st',
      riffleShuffle always_half 30 piled REPETITIONS SPLIT_ERROR PACKET_ERROR
        initial_state = Some (out, st')
      /\ contents (heap st') out ≡ₚ piled_init)
  /\ (exists budget out st',
         riffleShuffle always_half budget piled REPETITIONS SPLIT_ERROR
           PACKET_ERROR initial_state = Some (out, st')).
Proof.
  pose proof (riffleShuffle_permutation always_half piled REPETITIONS
                SPLIT_ERROR PACKET_ERROR initial_state) as [H1 H2].
  split.
  - eexists _, _. split; [vm_compute; reflexivity|].
    refine (proj1 (H1 30%nat _ _ _)). vm_compute. reflexivity.
  - apply H2.
    + exact always_half_unit_interval.
    + unfold PACKET_ERROR. lia.
    + intros n. exists 0%nat. vm_compute. discriminate.
Defined.

(** C1, the claim as stated fails: with [packetError = 1] every packet drawn
    is empty, and the call on the bottom-stacked deck returns nothing,
    whatever the number of iterations allowed. *)
Lemma riffleShuffle_packetError_1_no_result :
  ~ exists budget : nat,
      is_Some (riffleShuffle always_half budget bottomStacked 1 SPLIT_ERROR 1
                 initial_state).
Proof.
  intros [budget [r H]].
  rewrite riffleShuffle_no_result in H; [discriminate|].
  cbn [riffle_model]. rewrite repetition_model_stalls; [done | |].
  - intros k. vm_compute. discriminate.
  - vm_compute. discriminate.
Qed.

(** ** C2: the value of calculateAverageDistance *)

(** C2.  [calculateAverageDistance] returns the sum, over the marked cards
    after the first, of [currentIndex - previousIndex - 1], divided (by the
    division of the language) by the number of these gaps (0 when there is
    none); the result is not negative; and the four literal cases have the
    values stated. *)
Theorem calculateAverageDistance_correct :
  (forall deck : elems,
      calculateAverageDistance deck = averageDistance_spec deck
      /\ (0 <= calculateAverageDistance deck)%Q)
  /\ Qeq (calculateAverageDistance [1; 0; 0; 1; 0; 0; 1]) 2
  /\ Qeq (calculateAverageDistance [1; 1; 1]) 0
  /\ calculateAverageDistance [0; 0; 0] = 0%Q
  /\ Qeq (calculateAverageDistance [1; 0; 0; 0; 0; 1]) 4.
Proof.
  split; [|repeat split; vm_compute; reflexivity].
  intros deck. split; [apply calculateAverageDistance_eq|].
  rewrite calculateAverageDistance_eq. unfold averageDistance_spec.
  destruct (Z.ltb_spec 0 (Z.of_nat (length (gaps (marked_positions deck))))).
  - apply Number_div_nonneg; [apply gaps_nonneg | done].
  - apply Qle_refl.
Qed.

(** ** C3: the size of the left half *)

(** C3.  The cut of a repetition consumes one random result [r]; with
    [U = Math.floor(r * 9)], one of 0, ..., 8, the left half holds the first
    [floor(deckLength / 2) + U - splitError] cards of the deck whenever that
    number lies between 0 and the length of the deck.  Every value of
    0, ..., 8 is drawn for some [r]; [U] is at least [u] for every [r] from
    [u/9] on, and an [r] for which [U] is at least [u] is at least [u/9] up
    to the rounding of the product [r * 9], one part in [2^53]. *)
Theorem splitDeck_leftHalf_size (rnd : nat -> Q) (deck : loc) (splitError : Z)
    (h : list elems) (c : nat) :
  (deck < length h)%nat ->
  unit_interval (rnd c) ->
  let deckLength := Z.of_nat (length (contents h deck)) in
  let U := Math_floor (Number_mul (rnd c) 9) in
  0 <= U <= 8
  /\ (forall u : Z, 0 <= u <= 8 ->
      exists r, unit_interval r /\ Math_floor (Number_mul r 9) = u)
  /\ (forall u : Z,
        ((u # 9 <= rnd c)%Q -> u <= U)
        /\ (u <= U -> (u # 9 <= rnd c * (1 + pow2 (-53)))%Q))
  /\ (0 <= deckLength / 2 + U - splitError <= deckLength ->
      exists leftHalf h',
        splitDeck rnd deck splitError (mkState h c)
        = Some (leftHalf, mkState h' (S c))
        /\ Z.of_nat (length (contents h' leftHalf))
           = deckLength / 2 + U - splitError
        /\ contents h' leftHalf ++ contents h' deck = contents h deck).
Proof.
  intros Hd Hr deckLength U.
  assert (HU : 0 <= U <= 8).
  { pose proof (Math_floor_scaled_range (rnd c) 9 Hr ltac:(lia)) as HU.
    change (inject_Z 9) with 9%Q in HU. fold U in HU. lia. }
  split; [done|]. split; [|split].
  { intros u Hu. apply (Math_floor_scaled_onto 9 u); lia. }
  { intros u. apply (Math_floor_scaled_threshold (rnd c) 9 u Hr). lia. }
  intros Hrange.
  destruct (splitDeck_contents rnd deck splitError h c Hd) as (h' & Hrun & HL & HD).
  exists (length h), h'. split; [done|].
  rewrite HL, HD, take_drop. split; [|done].
  rewrite length_take. unfold clamped_cut.
  rewrite ToIntegerOrInfinity_cut. fold deckLength U.
  assert (E : Z.quot (deckLength + 2 * (U - splitError)) 2
              = deckLength / 2 + U - splitError).
  { clearbody deckLength U. Z.to_euclidean_division_equations. lia. }
  rewrite E. unfold deckLength in *. lia.
Qed.

(** The cut of an eight-card deck with [splitError = 4] and [U = 4]. *)
Lemma splitDeck_leftHalf_size_witness :
  exists leftHalf h',
    splitDeck always_half 0%nat 4 (mkState [small_deck] 0)
    = Some (leftHalf, mkState h' 1)
    /\ Z.of_nat (length (contents h' leftHalf)) = 4
    /\ contents h' leftHalf ++ contents h' 0%nat = small_deck.
Proof.
  refine (proj2 (proj2 (proj2 (splitDeck_leftHalf_size always_half 0%nat 4
                                 [small_deck] 0%nat _ _))) _).
  - vm_compute. lia.
  - apply always_half_unit_interval.
  - vm_compute. split; discriminate.
Defined.

(** ** C4: the number of iterations of the interleave loop *)




(** ** C5: the packets of the interleave loop *)

(** C5, at the failing input: [riffleShuffle([1,0,0,1,0,1,0,0], 1, 4, 4)]
    with the random results 1/2, 0, 3/4, 0, 1/4, 0.  The cut leaves
    [0,1,0,0] in the deck and [1,0,0,1] in the left half.  The first
    iteration draws a packet size of 3 ([leftCount] goes from 4 to 1) and
    removes no card: the packet, at location 3, is empty and the left half
    is whole.  The second iteration draws a packet size of 1 and removes the
    card of index 1 of the left half, not its last card: [1,0,1] is left.
    The loop then stops with three cards in the left half. *)
Theorem interleave_packet_not_the_tail :
  let st0 := mkState [small_deck; [0; 1; 0; 0]; [1; 0; 0; 1]] 2 in
  let st1 := mkState [small_deck; [0; 1; 0; 0]; [1; 0; 0; 1]; []; []] 4 in
  let st2 :=
    mkState [small_deck; [0; 1; 0; 0; 0]; [1; 0; 1]; []; []; [0]; []] 6 in
  (deck <- alloc small_deck ;; splitDeck packet_draws deck 4)%js
    (mkState [small_deck] 0)
  = Some (2%nat, mkState [small_deck; [0; 1; 0; 0]; [1; 0; 0; 1]] 1)
  /\ takeAmount_at packet_draws 4 2 = 3
  /\ interleave_body packet_draws 1%nat 2%nat 4 4 4 st0 = Some ((1, 7), st1)
  /\ takeAmount_at packet_draws 4 4 = 1
  /\ interleave_body packet_draws 1%nat 2%nat 4 1 7 st1 = Some ((0, 8), st2)
  /\ exists st',
      riffleShuffle packet_draws 2 0%nat 1 4 4 (mkState [small_deck] 0)
      = Some (1%nat, st')
      /\ contents (heap st') 1%nat = [0; 1; 0; 0; 0; 1; 0; 1].
Proof.
  repeat split; try (vm_compute; reflexivity).
  eexists. split; vm_compute; reflexivity.
Qed.

(** ** C6: riffleShuffle leaves its input alone *)

(** C6.  A call of [riffleShuffle] that returns has not changed the array it
    was given, which holds after the call the elements it held before, and
    the array returned is another one.  Hence a fixed template is the same
    deck after any number of trials of the simulation loop, and at the end
    of the script [bottomStacked] and [piled] are what they were
    declared. *)
Theorem riffleShuffle_input_unchanged :
  (forall (rnd : nat -> Q) (budget : nat) (deckInput : loc)
          (repetitions : nat) (splitError packetError : Z)
          (st st' : state) (out : loc),
      (deckInput < length (heap st))%nat ->
      riffleShuffle rnd budget deckInput repetitions splitError packetError st
      = Some (out, st') ->
      out <> deckInput
      /\ contents (heap st') deckInput = contents (heap st) deckInput)
  /\ (forall (rnd : nat -> Q) (budget : nat) (template : loc) (trials : nat)
             (shuffledArrays arrays : list loc) (st st' : state),
         (template < length (heap st))%nat ->
         simulateFixed rnd budget template trials shuffledArrays st
         = Some (arrays, st') ->
         contents (heap st') template = contents (heap st) template)
  /\ (forall (rnd : nat -> Q) (budget : nat)
             (samples : list Q * list Q * list Q) (st' : state),
         main rnd budget initial_state = Some (samples, st') ->
         contents (heap st') bottomStacked = bottomStacked_init
         /\ contents (heap st') piled = piled_init).
Proof.
  split; [|split].
  - intros rnd budget deckInput repetitions se pe st st' out Hvalid H.
    apply riffleShuffle_result in H as (_ & -> & [_ HU]).
    split; [lia|]. apply HU; [done|]. apply not_elem_of_nil.
  - intros rnd budget template trials acc arrays st st' Hvalid H.
    apply simulateFixed_unchanged in H as [_ HU].
    apply HU; [done|]. apply not_elem_of_nil.
  - intros rnd budget samples st' H.
    apply main_run in H as (H1 & H2 & _). now split.
Qed.

(** Three trials on the bottom-stacked deck. *)
Lemma riffleShuffle_input_unchanged_witness :
  exists arrays st',
    simulateFixed always_half 30 bottomStacked 3 [] initial_state
    = Some (arrays, st')
    /\ contents (heap st') bottomStacked = bottomStacked_init.
Proof.
  eexists _, _. split; [vm_compute; reflexivity|].
  refine (proj1 (proj2 riffleShuffle_input_unchanged) always_half 30%nat
            bottomStacked 3%nat [] _ initial_state _ _ _).
  - vm_compute. lia.
  - vm_compute. reflexivity.
Defined.

(** ** C7: decks with fewer than two marked cards *)

(** C7.  On a deck with fewer than two marked cards
    [calculateAverageDistance] returns exactly 0, as a value like any other;
    the list of averages has one entry for each shuffled array, in order,
    the entry of such a deck being 0; and each of the three lists of
    averages of the script has one entry for each trial. *)
Theorem degenerate_distance_is_zero :
  (forall deck : elems,
      (count_marked deck < 2)%nat -> calculateAverageDistance deck = 0%Q)
  /\ (forall (shuffledArrays : list loc) (st : state),
         exists samples,
           averages shuffledArrays st = Some (samples, st)
           /\ length samples = length shuffledArrays
           /\ forall (i : nat) (a : loc),
               shuffledArrays !! i = Some a ->
               samples !! i
               = Some (calculateAverageDistance (contents (heap st) a))
               /\ ((count_marked (contents (heap st) a) < 2)%nat ->
                   samples !! i = Some 0%Q))
  /\ (forall (rnd : nat -> Q) (budget : nat)
             (samples : list Q * list Q * list Q) (st' : state),
         main rnd budget initial_state = Some (samples, st') ->
         length samples.1.1 = SIM_COUNT
         /\ length samples.1.2 = SIM_COUNT
         /\ length samples.2 = SIM_COUNT).
Proof.
  assert (H0 : forall deck : elems,
             (count_marked deck < 2)%nat -> calculateAverageDistance deck = 0%Q).
  { intros deck Hdeg. rewrite calculateAverageDistance_eq.
    unfold averageDistance_spec, marked_positions.
    rewrite degenerate_gaps; [done|].
    now rewrite marked_positions_from_length. }
  split; [exact H0|]. split.
  - intros arrays st. rewrite averages_run. eexists. split; [reflexivity|].
    split; [apply length_map|].
    intros i a Ha.
    assert (E : map (fun a => calculateAverageDistance (contents (heap st) a))
                  arrays !! i
                = Some (calculateAverageDistance (contents (heap st) a))).
    { change (map ?f arrays) with (f <$> arrays).
      now rewrite list_lookup_fmap, Ha. }
    split; [done|]. intros Hdeg. rewrite E. f_equal. now apply H0.
  - intros rnd budget samples st' H.
    apply main_run in H as (_ & _ & _ & H1 & H2 & H3). now repeat split.
Qed.

(** A deck with one marked card, and a list of two shuffled arrays of which
    the second has no marked card. *)
Lemma degenerate_distance_is_zero_witness :
  calculateAverageDistance [0; 0; 1; 0] = 0%Q
  /\ exists samples,
      averages [0%nat; 1%nat] (mkState [[1; 0; 1]; [0; 0; 0]] 0)
      = Some (samples, mkState [[1; 0; 1]; [0; 0; 0]] 0)
      /\ samples !! 1%nat = Some 0%Q.
Proof.
  split.
  - apply (proj1 degenerate_distance_is_zero). vm_compute. lia.
  - destruct (proj1 (proj2 degenerate_distance_is_zero) [0%nat; 1%nat]
                (mkState [[1; 0; 1]; [0; 0; 0]] 0)) as (samples & Hrun & _ & H).
    exists samples. split; [exact Hrun|].
    apply (H 1%nat 1%nat); [reflexivity|]. vm_compute. lia.
Defined.

(** ** C8: the Fisher-Yates algorithm, once per trial *)

(** C8.  [fisherYatesShuffle] is the stated algorithm: on the array it is
    given it computes what the walk over the positions from the last index
    down to index 1 computes, exchanging at each position [i] the element
    with the one at the index drawn, and it returns that array; the index
    drawn at [i] is one of [0, ..., i].  In an array of up to [2^52]
    elements each of these indices can be drawn, the index is at least [j]
    for every random result from [j/(i+1)] on, and a random result for which
    it is at least [j] is at least [j/(i+1)] up to the rounding of the
    product, one part in [2^53].  The loop over the unordered deck is the
    runner that executes it anew in every trial, before that trial's
    shuffle. *)
Theorem fisherYatesShuffle_algorithm :
  (forall (rnd : nat -> Q) (array : loc) (h : list elems) (c : nat),
      (array < length h)%nat ->
      let r := fisherYates_spec rnd c (contents h array) in
      fisherYatesShuffle rnd array (mkState h c)
      = Some (array, mkState (<[array := r.1]> h) r.2))
  /\ (forall (r : Q) (i : nat), unit_interval r -> (draw_index r i <= i)%nat)
  /\ (forall i j : nat,
         (j <= i)%nat -> Z.of_nat i < 2 ^ 52 ->
         exists r, unit_interval r /\ draw_index r i = j)
  /\ (forall (r : Q) (i j : nat),
         unit_interval r -> Z.of_nat i < 2 ^ 52 ->
         ((Z.of_nat j # Pos.of_succ_nat i <= r)%Q -> (j <= draw_index r i)%nat)
         /\ ((j <= draw_index r i)%nat ->
             (Z.of_nat j # Pos.of_succ_nat i <= r * (1 + pow2 (-53)))%Q))
  /\ (forall (rnd : nat -> Q) (budget : nat) (template : loc) (trials : nat)
             (shuffledArrays : list loc) (st : state),
         simulateUnordered rnd budget template trials shuffledArrays st
         = (rest <- run_randomized_spec rnd budget template trials ;;
            ret (shuffledArrays ++ rest)) st).
Proof.
  split; [|split; [|split; [|split]]].
  - intros rnd array h c Ha. now apply fisherYatesShuffle_run.
  - apply draw_index_in_range.
  - apply draw_index_onto.
  - apply draw_index_threshold.
  - intros. apply simulateUnordered_spec.
Qed.

(** The call on a four-card array, and the index drawn at position 49, when
    every random result is one half. *)
Lemma fisherYatesShuffle_algorithm_witness :
  fisherYatesShuffle always_half 0%nat (mkState [four_cards] 0)
  = Some (0%nat, mkState [[1; 1; 0; 0]] 3)
  /\ (draw_index (always_half 0%nat) 49 <= 49)%nat.
Proof.
  split.
  - rewrite (proj1 fisherYatesShuffle_algorithm always_half 0%nat [four_cards]
               0%nat); [vm_compute; reflexivity | vm_compute; lia].
  - apply (proj1 (proj2 fisherYatesShuffle_algorithm)).
    apply always_half_unit_interval.
Defined.

(** ** C9: a cut outside the deck *)

(** C9 (as amended).  The cut is never rejected.  The number of cards it
    takes is the computed size clamped to the range from 0 to the length of
    the deck, by [splice] itself; the store after the cut is the one that a
    cut with the clamped size leaves, so nothing records that the computed
    size was out of range.  The left half followed by the rest is the deck
    before the cut, and a repetition that returns leaves the deck with the
    cards, and so the length, it had. *)
Theorem splitDeck_clamps_silently (rnd : nat -> Q) (deck : loc)
    (splitError : Z) (h : list elems) (c : nat) :
  (deck < length h)%nat ->
  let deckLength := Z.of_nat (length (contents h deck)) in
  let size := clamped_cut deckLength (rnd c) splitError in
  0 <= size <= deckLength
  /\ (exists leftHalf h',
         splitDeck rnd deck splitError (mkState h c)
         = Some (leftHalf, mkState h' (S c))
         /\ Z.of_nat (length (contents h' leftHalf)) = size
         /\ contents h' leftHalf ++ contents h' deck = contents h deck)
  /\ splitDeck rnd deck splitError (mkState h c)
     = Array_splice deck 0 size [] (mkState h (S c))
  /\ (forall budget packetError st',
         repetition rnd budget deck splitError packetError (mkState h c)
         = Some (tt, st') ->
         contents (heap st') deck ≡ₚ contents h deck
         /\ length (contents (heap st') deck) = length (contents h deck)).
Proof.
  intros Hd deckLength size.
  assert (Hsize : 0 <= size <= deckLength).
  { unfold size, clamped_cut, deckLength. lia. }
  split; [done|]. split; [|split].
  - destruct (splitDeck_contents rnd deck splitError h c Hd) as (h' & Hrun & HL & HD).
    exists (length h), h'. split; [done|].
    rewrite HL, HD, take_drop. split; [|done].
    rewrite length_take. fold deckLength size. unfold deckLength in *. lia.
  - unfold splitDeck, bind.
    rewrite run_Array_length, run_Math_random, !run_Array_splice.
    now rewrite splice_front_clamped.
  - intros budget packetError st' H.
    pose proof (repetition_length rnd budget deck splitError packetError
                  (mkState h c) st' Hd H) as P.
    split; [exact P | now apply Permutation_length].
Qed.

(** The cut of the four-card deck when the computed size is -1. *)
Lemma splitDeck_clamps_silently_witness :
  splitDeck cut_below_zero 0%nat 4 (mkState [four_cards] 0)
  = Array_splice 0%nat 0 0 [] (mkState [four_cards] 1).
Proof.
  refine (proj1 (proj2 (proj2 (splitDeck_clamps_silently cut_below_zero 0%nat 4
                                 [four_cards] 0%nat _)))).
  vm_compute. lia.
Defined.

(** C9, the claim as stated fails: a computed size of -1 is neither rejected
    nor detectable.  The call returns, and it returns the same array in the
    same final state as the call whose computed size is 0. *)
Lemma out_of_range_cut_not_detectable :
  Qeq (cutDeckVariant 4 (cut_below_zero 0%nat) 4) (-1)
  /\ Qeq (cutDeckVariant 4 (cut_at_zero 0%nat) 4) 0
  /\ is_Some (riffleShuffle cut_below_zero 0 0%nat 1 4 4 (mkState [four_cards] 0))
  /\ riffleShuffle cut_below_zero 0 0%nat 1 4 4 (mkState [four_cards] 0)
     = riffleShuffle cut_at_zero 0 0%nat 1 4 4 (mkState [four_cards] 0).
Proof.
  repeat split; vm_compute; eauto.
Qed.

(** ** C10: fisherYatesShuffle works on the array it is given *)

(** C10.  [fisherYatesShuffle] returns the location it was given; it permutes
    the array at that location where it is, creating no array and leaving
    the other arrays alone.  So the loop over the unordered deck permutes
    the one template in every trial: after any number of trials, and at the
    end of the script, the template holds a permutation of what it held and
    the other arrays that existed are unchanged; and the order of the
    template does change (here after one trial, every random result being
    one half). *)
Theorem fisherYatesShuffle_in_place :
  (forall (rnd : nat -> Q) (array : loc) (st : state),
      (array < length (heap st))%nat ->
      (forall n, unit_interval (rnd n)) ->
      exists st',
        fisherYatesShuffle rnd array st = Some (array, st')
        /\ length (heap st') = length (heap st)
        /\ contents (heap st') array ≡ₚ contents (heap st) array
        /\ (forall b, b <> array ->
                      contents (heap st') b = contents (heap st) b))
  /\ (forall (rnd : nat -> Q) (budget : nat) (template : loc) (trials : nat)
             (shuffledArrays arrays : list loc) (st st' : state),
         (template < length (heap st))%nat ->
         (forall n, unit_interval (rnd n)) ->
         simulateUnordered rnd budget template trials shuffledArrays st
         = Some (arrays, st') ->
         contents (heap st') template ≡ₚ contents (heap st) template
         /\ (forall b, (b < length (heap st))%nat -> b <> template ->
                       contents (heap st') b = contents (heap st) b))
  /\ (forall (rnd : nat -> Q) (budget : nat)
             (samples : list Q * list Q * list Q) (st' : state),
         (forall n, unit_interval (rnd n)) ->
         main rnd budget initial_state = Some (samples, st') ->
         contents (heap st') unordered ≡ₚ unordered_init)
  /\ (exists arrays st',
         simulateUnordered always_half 30 unordered 1 [] initial_state
         = Some (arrays, st')
         /\ contents (heap st') unordered <> unordered_init).
Proof.
  split; [|split; [|split]].
  - apply fisherYatesShuffle_store.
  - intros rnd budget template trials acc arrays st st' Ht Hr H.
    destruct (simulateUnordered_template rnd trials budget template acc st
                arrays st' Ht Hr H) as (HP & _ & HF).
    now split.
  - intros rnd budget samples st' Hr H.
    apply main_run in H as (_ & _ & H & _). now apply H.
  - eexists _, _. split; [vm_compute; reflexivity|].
    vm_compute. discriminate.
Qed.

(** The call on the unordered deck of the script. *)
Lemma fisherYatesShuffle_in_place_witness :
  exists st',
    fisherYatesShuffle always_half unordered initial_state
    = Some (unordered, st')
    /\ length (heap st') = 3%nat
    /\ contents (heap st') unordered ≡ₚ unordered_init
    /\ (forall b, b <> unordered ->
                  contents (heap st') b = contents (heap initial_state) b).
Proof.
  apply (proj1 fisherYatesShuffle_in_place always_half unordered initial_state).
  - vm_compute. lia.
  - exact always_half_unit_interval.
Defined.

(** * Further properties of the code: lemmas *)

(** ** calculateAverageDistance: what the result depends on *)

Lemma marked_positions_from_app (l1 l2 : elems) :
  forall i,
    marked_positions_from i (l1 ++ l2)
    = marked_positions_from i l1
      ++ marked_positions_from (i + Z.of_nat (length l1)) l2.
Proof.
  induction l1 as [|x l1 IH]; intros i; cbn [app marked_positions_from length].
  - now rewrite Z.add_0_r.
  - rewrite IH. replace (i + 1 + Z.of_nat (length l1))
      with (i + Z.of_nat (S (length l1))) by lia.
    now destruct (x =? 1).
Qed.

Lemma marked_positions_from_unmarked (l : elems) (i : Z) :
  count_marked l = 0%nat -> marked_positions_from i l = [].
Proof.
  intros H. apply length_zero_iff_nil.
  now rewrite marked_positions_from_length.
Qed.

Lemma last_cons_default (positions : list Z) :
  forall p d, List.last (p :: positions) d = List.last positions p.
Proof.
  induction positions as [|q positions IH]; intros p d; [done|].
  change (List.last (p :: q :: positions) d)
    with (List.last (q :: positions) d).
  now rewrite !IH.
Qed.

(** The gaps telescope: their sum is the distance from the first position
    to the last, less the number of positions after the first. *)
Lemma gaps_after_sum (positions : list Z) :
  forall previousIndex,
    sum_list (gaps_after previousIndex positions)
    = List.last positions previousIndex - previousIndex
      - Z.of_nat (length positions).
Proof.
  induction positions as [|p positions IH]; intros prev.
  - cbn. lia.
  - change (sum_list (gaps_after prev (p :: positions)))
      with (p - prev - 1 + sum_list (gaps_after p positions)).
    rewrite IH.
    rewrite last_cons_default. cbn [length]. lia.
Qed.

Lemma gaps_after_length (positions : list Z) :
  forall previousIndex,
    length (gaps_after previousIndex positions) = length positions.
Proof.
  induction positions as [|p positions IH]; intros prev; cbn; [done|].
  now rewrite IH.
Qed.

Lemma count_marked_app (l1 l2 : elems) :
  count_marked (l1 ++ l2) = (count_marked l1 + count_marked l2)%nat.
Proof. apply count_occ_app. Qed.

Lemma count_marked_le_length (l : elems) : (count_marked l <= length l)%nat.
Proof. apply count_occ_bound. Qed.

(** The result on a deck written around its first and its last marked
    card. *)
Lemma average_between_outer_marks (before middle after : elems) :
  count_marked before = 0%nat -> count_marked after = 0%nat ->
  calculateAverageDistance (before ++ 1 :: middle ++ 1 :: after)
  = Number_div
      (inject_Z (Z.of_nat (length middle) - Z.of_nat (count_marked middle)))
      (inject_Z (Z.of_nat (count_marked middle) + 1)).
Proof.
  intros Hb Ha. rewrite calculateAverageDistance_eq.
  unfold averageDistance_spec, marked_positions.
  rewrite marked_positions_from_app, (marked_positions_from_unmarked before)
    by done.
  cbn [app marked_positions_from Z.eqb Pos.eqb gaps].
  rewrite marked_positions_from_app. cbn [marked_positions_from Z.eqb Pos.eqb].
  rewrite (marked_positions_from_unmarked after) by done.
  rewrite gaps_after_sum, gaps_after_length, last_last, length_app.
  rewrite marked_positions_from_length. cbn [length].
  destruct (Z.ltb_spec 0 (Z.of_nat (count_marked middle + 1))); [|lia].
  f_equal; f_equal; lia.
Qed.

Lemma count_marked_rev (l : elems) : count_marked (rev l) = count_marked l.
Proof. apply count_occ_rev. Qed.

Lemma first_mark_split (deck : elems) :
  (1 <= count_marked deck)%nat ->
  exists before rest,
    deck = before ++ 1 :: rest /\ count_marked before = 0%nat.
Proof.
  unfold count_marked.
  induction deck as [|x deck IH]; cbn [count_occ]; [lia|].
  destruct (Z.eq_dec x 1) as [->|Hx].
  - intros _. now exists [], deck.
  - intros H. destruct (IH H) as (before & rest & -> & Hb).
    exists (x :: before), rest. split; [done|].
    cbn [count_occ]. now destruct (Z.eq_dec x 1).
Qed.

(** A deck with two marked cards or more, written around the first and the
    last of them. *)
Lemma outer_marks_split (deck : elems) :
  (2 <= count_marked deck)%nat ->
  exists before middle after,
    deck = before ++ 1 :: middle ++ 1 :: after
    /\ count_marked before = 0%nat /\ count_marked after = 0%nat.
Proof.
  intros H.
  destruct (first_mark_split deck ltac:(lia)) as (before & rest & -> & Hb).
  rewrite count_marked_app, Hb in H.
  change (count_marked (1 :: rest)) with (S (count_marked rest)) in H.
  destruct (first_mark_split (rev rest)) as (b2 & r2 & E & Hb2).
  { rewrite count_marked_rev. lia. }
  apply (f_equal (@rev Z)) in E. rewrite rev_involutive, rev_app_distr in E.
  cbn [rev] in E. rewrite <- app_assoc in E. cbn [app] in E.
  exists before, (rev r2), (rev b2). subst rest.
  now rewrite count_marked_rev.
Qed.

Lemma average_of_degenerate (deck : elems) :
  (count_marked deck < 2)%nat -> calculateAverageDistance deck = 0%Q.
Proof.
  intros Hdeg. rewrite calculateAverageDistance_eq.
  unfold averageDistance_spec, marked_positions.
  rewrite degenerate_gaps; [done|]. now rewrite marked_positions_from_length.
Qed.

Lemma quotient_le (s b n : Z) :
  s <= b -> 0 < n -> (inject_Z s / inject_Z n <= inject_Z b / inject_Z n)%Q.
Proof.
  intros Hs Hn. destruct n as [|p|p]; try lia.
  unfold Qle, Qdiv, Qmult, Qinv, inject_Z. simpl. nia.
Qed.

(** Rounding keeps the order of two quotients. *)
Lemma Number_div_le (s b n : Z) :
  0 <= s <= b -> 0 < n ->
  (Number_div (inject_Z s) (inject_Z n)
   <= Number_div (inject_Z b) (inject_Z n))%Q.
Proof.
  intros [H0 H] Hn. apply binary64_mono.
  - now apply quotient_nonneg.
  - now apply quotient_le.
Qed.

Lemma average_upper_bound (deck : elems) :
  (2 <= count_marked deck)%nat ->
  (calculateAverageDistance deck
   <= Number_div
        (inject_Z (Z.of_nat (length deck) - Z.of_nat (count_marked deck)))
        (inject_Z (Z.of_nat (count_marked deck) - 1)))%Q.
Proof.
  intros H.
  destruct (outer_marks_split deck H) as (before & middle & after & -> & Hb & Ha).
  rewrite average_between_outer_marks by done.
  rewrite !count_marked_app, Hb.
  change (count_marked (1 :: middle ++ 1 :: after))
    with (S (count_marked (middle ++ 1 :: after))).
  rewrite count_marked_app.
  change (count_marked (1 :: after)) with (S (count_marked after)).
  rewrite Ha, !length_app. cbn [length]. rewrite length_app. cbn [length].
  replace (Z.of_nat (0 + S (count_marked middle + 1)) - 1)
    with (Z.of_nat (count_marked middle) + 1) by lia.
  pose proof (count_marked_le_length middle).
  apply Number_div_le; lia.
Qed.

Lemma average_reverse (deck : elems) :
  calculateAverageDistance (rev deck) = calculateAverageDistance deck.
Proof.
  destruct (Nat.le_gt_cases 2 (count_marked deck)) as [H|H].
  - destruct (outer_marks_split deck H)
      as (before & middle & after & -> & Hb & Ha).
    rewrite average_between_outer_marks by done.
    rewrite rev_app_distr. cbn [rev]. rewrite rev_app_distr. cbn [rev].
    rewrite <- !app_assoc. cbn [app].
    rewrite average_between_outer_marks by now rewrite count_marked_rev.
    now rewrite count_marked_rev, length_rev.
  - rewrite !average_of_degenerate; [done | lia |].
    rewrite count_marked_rev. lia.
Qed.

(** ** The interleave loop: what it keeps *)

Section LoopFacts.

Variable rnd : nat -> Q.

(** The length of an array after a [splice] that only removes. *)
Lemma splice_remove_length (l : elems) (start deleteCount : Z) :
  0 <= start <= Z.of_nat (length l) ->
  Z.of_nat (length (splice l start deleteCount []).2)
  = Z.of_nat (length l)
    - Z.min (Z.max deleteCount 0) (Z.of_nat (length l) - start).
Proof.
  intros Hs. unfold splice, actualStart. cbn [snd app].
  destruct (Z.ltb_spec start 0); [lia|].
  rewrite Z.min_l by lia.
  rewrite length_app, length_take, length_drop. lia.
Qed.

(** One iteration keeps [leftCount] within the left half, and leaves a card
    in the left half when it is the last one. *)
Lemma body_model_leftHalf (packetError : Z) (c : nat) (D L : elems)
    (leftCount rightCount : Z) :
  0 <= takeAmount_at rnd packetError c ->
  0 < leftCount <= Z.of_nat (length L) ->
  let r := body_model rnd packetError c D L leftCount rightCount in
  r.1.2 <= Z.of_nat (length r.1.1.2) /\ (1 <= length r.1.1.2)%nat.
Proof.
  intros Ht Hlc. unfold body_model. cbn [fst snd].
  pose proof (splice_remove_length L leftCount
                (takeAmount_at rnd packetError c) ltac:(lia)) as E.
  lia.
Qed.

Lemma interleave_model_leftHalf (budget : nat) :
  forall (packetError : Z) (c : nat) (D L : elems) (leftCount rightCount : Z)
         (D' L' : elems) (rightCount' : Z) (c' : nat),
    (forall n, 0 <= takeAmount_at rnd packetError n) ->
    0 < leftCount <= Z.of_nat (length L) ->
    interleave_model rnd budget packetError c D L leftCount rightCount
    = Some (D', L', rightCount', c') ->
    (1 <= length L')%nat.
Proof.
  induction budget as [|budget IH];
    intros pe c D L lc rc D' L' rc' c' Ht Hlc; cbn [interleave_model];
    destruct (Z.ltb_spec 0 lc); try lia; [discriminate|].
  pose proof (body_model_leftHalf pe c D L lc rc (Ht c) Hlc) as [H1 H2].
  destruct (body_model rnd pe c D L lc rc) as [[[D1 L1] lc1] rc1].
  cbn [fst snd] in H1, H2.
  destruct (Z.ltb_spec 0 lc1) as [Hpos|Hend].
  - apply IH; [done | lia].
  - destruct budget; cbn [interleave_model];
      (destruct (Z.ltb_spec 0 lc1); [lia|]); now intros [= <- <- <- <-].
Qed.

(** *** The right part keeps its order *)

Lemma splice_insert_sublist (l : elems) (start : Z) (items : elems) :
  l `sublist_of` (splice l start 0 items).2.
Proof.
  rewrite splice_insert_block. cbn zeta.
  set (a := Z.to_nat _).
  rewrite <- (take_drop a l) at 1.
  apply sublist_app; [done|]. now apply sublist_inserts_l.
Qed.

Lemma interleave_model_sublist (budget : nat) :
  forall (packetError : Z) (c : nat) (D L : elems) (leftCount rightCount : Z)
         (D' L' : elems) (rightCount' : Z) (c' : nat),
    interleave_model rnd budget packetError c D L leftCount rightCount
    = Some (D', L', rightCount', c') ->
    D `sublist_of` D'.
Proof.
  induction budget as [|budget IH]; intros pe c D L lc rc D' L' rc' c';
    cbn [interleave_model]; destruct (0 <? lc); try discriminate;
    try (now intros [= <- <- <- <-]).
  unfold body_model. intros H. apply IH in H.
  etrans; [|exact H]. apply splice_insert_sublist.
Qed.

Lemma repetition_model_sublist (budget : nat) (splitError packetError : Z)
    (c : nat) (D D' : elems) (c' : nat) :
  repetition_model rnd budget splitError packetError c D = Some (D', c') ->
  (split_model rnd splitError c D).2 `sublist_of` D'.
Proof.
  unfold repetition_model.
  destruct (split_model rnd splitError c D) as [L D1]. cbn [snd].
  destruct (interleave_model _ _ _ _ _ _ _ _) as [[[[D2 L2] rc2] c2]|] eqn:EI;
    [|discriminate].
  intros [= <- <-]. apply interleave_model_sublist in EI.
  etrans; [exact EI|]. apply splice_insert_sublist.
Qed.

End LoopFacts.

(** ** From a run of the program to the model *)

Lemma interleave_result (rnd : nat -> Q) (budget : nat) (deck leftHalf : loc)
    (packetError leftCount rightCount : Z) (h : list elems) (c : nat)
    (rightCount' : Z) (st' : state) :
  deck <> leftHalf ->
  (deck < length h)%nat -> (leftHalf < length h)%nat ->
  interleave rnd budget deck leftHalf packetError leftCount rightCount
    (mkState h c) = Some (rightCount', st') ->
  interleave_model rnd budget packetError c (contents h deck)
    (contents h leftHalf) leftCount rightCount
  = Some (contents (heap st') deck, contents (heap st') leftHalf,
          rightCount', cursor st').
Proof.
  intros Hne Hd Hl H.
  pose proof (interleave_run rnd budget deck leftHalf packetError leftCount
                rightCount h c Hne Hd Hl) as R.
  destruct (interleave_model _ _ _ _ _ _ _ _) as [[[[D' L'] rc'] c']|].
  - destruct R as (h' & R & <- & <- & _). rewrite R in H.
    now injection H as <- <-.
  - rewrite R in H. discriminate.
Qed.

Lemma repetition_result (rnd : nat -> Q) (budget : nat) (deck : loc)
    (splitError packetError : Z) (h : list elems) (c : nat) (st' : state) :
  (deck < length h)%nat ->
  repetition rnd budget deck splitError packetError (mkState h c)
  = Some (tt, st') ->
  repetition_model rnd budget splitError packetError c (contents h deck)
  = Some (contents (heap st') deck, cursor st').
Proof.
  intros Hd H.
  pose proof (repetition_run rnd budget deck splitError packetError h c Hd) as R.
  destruct (repetition_model _ _ _ _ _ _) as [[D' c']|].
  - destruct R as (h' & R & <- & _). rewrite R in H. now injection H as <-.
  - rewrite R in H. discriminate.
Qed.

Section MoreModelFacts.

Variable rnd : nat -> Q.

(** *** A cut that takes no card *)

Lemma splice_insert_nothing (l : elems) (start : Z) :
  (splice l start 0 []).2 = l.
Proof. rewrite splice_insert_block. cbn [app]. apply take_drop. Qed.

Lemma repetition_model_no_card (budget : nat) (splitError packetError : Z)
    (c : nat) (D : elems) :
  clamped_cut (Z.of_nat (length D)) (rnd c) splitError = 0 ->
  repetition_model rnd budget splitError packetError c D
  = Some (D, S (S c)).
Proof.
  intros H. unfold repetition_model.
  rewrite split_model_take_drop. cbn zeta. rewrite H.
  change (Z.to_nat 0) with 0%nat. rewrite take_0, drop_0.
  destruct budget; cbn [interleave_model length];
    change (0 <? Z.of_nat 0) with false; cbv iota;
    now rewrite splice_insert_nothing.
Qed.

Lemma riffle_model_empty (repetitions : nat) :
  forall (budget : nat) (splitError packetError : Z) (c : nat),
    riffle_model rnd budget repetitions splitError packetError c []
    = Some ([], (c + 2 * repetitions)%nat).
Proof.
  induction repetitions as [|n IH]; intros budget se pe c;
    cbn [riffle_model].
  - do 2 f_equal. lia.
  - rewrite repetition_model_no_card.
    + rewrite IH. do 2 f_equal. lia.
    + unfold clamped_cut. cbn [length]. lia.
Qed.

(** *** The iterations of the loops *)

Lemma interleave_model_iterations (budget : nat) :
  forall (packetError : Z) (c : nat) (D L : elems) (leftCount rightCount : Z)
         (D' L' : elems) (rightCount' : Z) (c' : nat),
    interleave_model rnd budget packetError c D L leftCount rightCount
    = Some (D', L', rightCount', c') ->
    exists iterations,
      while_iterations rnd budget packetError c leftCount = Some iterations
      /\ (iterations <= budget)%nat /\ c' = (c + 2 * iterations)%nat.
Proof.
  induction budget as [|budget IH]; intros pe c D L lc rc D' L' rc' c';
    cbn [interleave_model while_iterations]; destruct (0 <? lc);
    try discriminate;
    try (intros [= <- <- <- <-]; exists 0%nat; repeat split; lia).
  unfold body_model. intros H. apply IH in H as (k & -> & Hk & ->).
  exists (S k). repeat split; lia.
Qed.

(** The loop stops at the first iteration at which the packet sizes drawn
    add up to [leftCount] or more. *)
Lemma while_iterations_least (budget : nat) :
  forall (packetError : Z) (c : nat) (leftCount : Z) (n : nat),
    while_iterations rnd budget packetError c leftCount = Some n ->
    leftCount <= packets_drawn rnd packetError c n
    /\ forall m, (m < n)%nat -> packets_drawn rnd packetError c m < leftCount.
Proof.
  induction budget as [|budget IH]; intros pe c lc n;
    cbn [while_iterations]; destruct (Z.ltb_spec 0 lc); try discriminate;
    try (intros [= <-]; cbn [packets_drawn]; split; [lia | intros; lia]).
  destruct (while_iterations rnd budget pe (S (S c)) _) as [n'|] eqn:E;
    [|discriminate].
  intros [= <-]. apply IH in E as [H1 H2]. cbn [packets_drawn]. split; [lia|].
  intros [|m] Hm; cbn [packets_drawn]; [lia|].
  specialize (H2 m ltac:(lia)). lia.
Qed.

Lemma riffle_model_iterations (repetitions : nat) :
  forall (budget : nat) (splitError packetError : Z) (c : nat) (D D' : elems)
         (c' : nat),
    riffle_model rnd budget repetitions splitError packetError c D
    = Some (D', c') ->
    exists iterations,
      riffle_iterations rnd budget repetitions splitError packetError c
        (Z.of_nat (length D)) = Some iterations
      /\ (iterations <= repetitions * budget)%nat
      /\ c' = (c + 2 * (repetitions + iterations))%nat.
Proof.
  induction repetitions as [|n IH]; intros budget se pe c D D' c';
    cbn [riffle_model riffle_iterations].
  - intros [= <- <-]. exists 0%nat. repeat split; lia.
  - destruct (repetition_model rnd budget se pe c D) as [[D1 c1]|] eqn:ER;
      [|discriminate].
    pose proof (repetition_model_perm rnd _ _ _ _ _ _ _ ER) as HP.
    apply Permutation_length in HP.
    revert ER. unfold repetition_model. rewrite split_model_take_drop.
    cbn zeta.
    assert (Hc : Z.of_nat (length (take (Z.to_nat (clamped_cut
                   (Z.of_nat (length D)) (rnd c) se)) D))
                 = clamped_cut (Z.of_nat (length D)) (rnd c) se).
    { rewrite length_take. unfold clamped_cut. lia. }
    rewrite Hc.
    destruct (interleave_model _ _ _ _ _ _ _ _) as [[[[D2 L2] rc2] c2]|] eqn:EI;
      [|discriminate].
    intros [= <- <-].
    apply interleave_model_iterations in EI as (k1 & -> & Hk1 & ->).
    intros H. apply IH in H as (k2 & E2 & Hk2 & ->).
    rewrite HP in E2. rewrite E2. exists (k1 + k2)%nat.
    repeat split; cbn [option_map]; (done || lia).
Qed.

End MoreModelFacts.

(** ** fisherYatesShuffle: lengths and random results *)

Lemma fisherYates_fold_length (rnd : nat -> Q) (positions : list nat) :
  forall (l : elems) (c : nat),
    let r :=
      fold_left
        (fun lc i => (exchange lc.1 i (draw_index (rnd lc.2) i), S lc.2))
        positions (l, c) in
    length r.1 = length l /\ r.2 = (c + length positions)%nat.
Proof.
  induction positions as [|i positions IH]; intros l c;
    cbn [fold_left fst snd length].
  - split; [done | lia].
  - destruct (IH (exchange l i (draw_index (rnd c) i)) (S c)) as [E1 E2].
    cbn zeta in E1, E2. rewrite E1, E2, exchange_length. split; [done | lia].
Qed.

Lemma fisherYates_spec_length (rnd : nat -> Q) (c : nat) (l : elems) :
  length (fisherYates_spec rnd c l).1 = length l
  /\ (fisherYates_spec rnd c l).2 = (c + (length l - 1))%nat.
Proof.
  unfold fisherYates_spec.
  destruct (fisherYates_fold_length rnd (positions_down_to_1 (length l)) l c)
    as [E1 E2].
  split; [done|]. rewrite E2. unfold positions_down_to_1.
  now rewrite length_rev, length_seq.
Qed.

Lemma fisherYates_spec_short (rnd : nat -> Q) (c : nat) (l : elems) :
  (length l <= 1)%nat -> fisherYates_spec rnd c l = (l, c).
Proof.
  intros H. unfold fisherYates_spec, positions_down_to_1.
  replace (length l - 1)%nat with 0%nat by lia. reflexivity.
Qed.

(** ** The results of the simulation loops *)

(** The array that [riffleShuffle] returns did not exist before the call. *)
Lemma riffleShuffle_fresh (rnd : nat -> Q) (budget : nat) (deckInput : loc)
    (repetitions : nat) (splitError packetError : Z) (st st' : state)
    (out : loc) :
  riffleShuffle rnd budget deckInput repetitions splitError packetError st
  = Some (out, st') ->
  out = length (heap st) /\ (out < length (heap st'))%nat.
Proof.
  destruct st as [h c]. cbn [heap]. unfold riffleShuffle, bind.
  rewrite run_spread, run_alloc.
  pose proof (repetitions_loop_run rnd repetitions budget (length h) splitError
                packetError (h ++ [contents h deckInput]) c) as R.
  destruct (riffle_model _ _ _ _ _ _ _) as [[D' c']|].
  - destruct R as (h' & -> & _ & [Hlen _]).
    { rewrite length_app. cbn. lia. }
    intros [= <- <-]. cbn [heap]. rewrite length_app in Hlen. cbn in Hlen.
    split; [done | lia].
  - rewrite R; [discriminate|]. rewrite length_app. cbn. lia.
Qed.

Lemma simulateFixed_results (rnd : nat -> Q) (trials : nat) :
  forall (budget : nat) (template : loc) (shuffledArrays : list loc)
         (st : state) (arrays : list loc) (st' : state),
    (template < length (heap st))%nat ->
    simulateFixed rnd budget template trials shuffledArrays st
    = Some (arrays, st') ->
    exists results,
      arrays = shuffledArrays ++ results
      /\ length results = trials
      /\ fresh_from (length (heap st)) results (length (heap st'))
      /\ Forall (fun a => contents (heap st') a
                          ≡ₚ contents (heap st) template) results.
Proof.
  induction trials as [|n IH]; intros budget template acc st arrays st' Ht;
    cbn [simulateFixed].
  - intros [= <- <-]. exists []. rewrite app_nil_r.
    repeat split; constructor.
  - unfold bind.
    destruct (riffleShuffle _ _ _ _ _ _ st) as [[out st1]|] eqn:ER;
      [|discriminate].
    destruct (riffleShuffle_fresh _ _ _ _ _ _ _ _ _ ER) as [Hout Hlt].
    apply riffleShuffle_result in ER as (EM & _ & [Hlen HU]).
    apply riffle_model_perm in EM.
    intros H.
    pose proof (simulateFixed_unchanged _ _ _ _ _ _ _ _ H) as [Hlen' HU'].
    apply IH in H as (results & -> & Hn & [Hfresh Hnd] & Hperm); [|lia].
    exists (out :: results). rewrite <- app_assoc. split; [done|].
    split; [cbn; lia|]. split; [split|].
    + constructor; [lia|]. eapply Forall_impl; [exact Hfresh|].
      cbn. intros; lia.
    + constructor; [|done]. intros Hin.
      rewrite Forall_forall in Hfresh. apply Hfresh in Hin. lia.
    + constructor.
      * rewrite HU' by (done || apply not_elem_of_nil). exact EM.
      * eapply Forall_impl; [exact Hperm|]. cbn. intros a Ha.
        rewrite Ha. rewrite HU by (done || apply not_elem_of_nil). done.
Qed.

Lemma simulateUnordered_results (rnd : nat -> Q) (trials : nat) :
  forall (budget : nat) (template : loc) (shuffledArrays : list loc)
         (st : state) (arrays : list loc) (st' : state),
    (template < length (heap st))%nat ->
    (forall n, unit_interval (rnd n)) ->
    simulateUnordered rnd budget template trials shuffledArrays st
    = Some (arrays, st') ->
    exists results,
      arrays = shuffledArrays ++ results
      /\ length results = trials
      /\ fresh_from (length (heap st)) results (length (heap st'))
      /\ Forall (fun a => contents (heap st') a
                          ≡ₚ contents (heap st) template) results.
Proof.
  induction trials as [|n IH]; intros budget template acc st arrays st' Ht Hr;
    cbn [simulateUnordered].
  - intros [= <- <-]. exists []. rewrite app_nil_r.
    repeat split; constructor.
  - unfold bind.
    destruct (fisherYatesShuffle_store rnd template st Ht Hr)
      as (st0 & -> & Hlen0 & HP0 & HF0).
    destruct (riffleShuffle _ _ _ _ _ _ st0) as [[out st1]|] eqn:ER;
      [|discriminate].
    destruct (riffleShuffle_fresh _ _ _ _ _ _ _ _ _ ER) as [Hout Hlt].
    apply riffleShuffle_result in ER as (EM & _ & [Hlen HU]).
    apply riffle_model_perm in EM.
    intros H.
    assert (Ht1 : (template < length (heap st1))%nat) by lia.
    pose proof (simulateUnordered_frame _ _ _ _ _ _ _ _ Ht1 H)
      as [[Hlen' HU'] _].
    apply IH in H as (results & -> & Hn & [Hfresh Hnd] & Hperm); [|lia|done].
    exists (out :: results). rewrite <- app_assoc. split; [done|].
    split; [cbn; lia|]. split; [split|].
    + constructor; [lia|]. eapply Forall_impl; [exact Hfresh|].
      cbn. intros; lia.
    + constructor; [|done]. intros Hin.
      rewrite Forall_forall in Hfresh. apply Hfresh in Hin. lia.
    + constructor.
      * rewrite HU'; [now rewrite EM | done |].
        intros Hin%list_elem_of_singleton. lia.
      * eapply Forall_impl; [exact Hperm|]. cbn. intros a Ha.
        rewrite Ha. rewrite HU by (lia || apply not_elem_of_nil). exact HP0.
Qed.

(** ** The averages of shuffled templates *)

Lemma average_nonneg (deck : elems) : (0 <= calculateAverageDistance deck)%Q.
Proof.
  rewrite calculateAverageDistance_eq. unfold averageDistance_spec.
  destruct (Z.ltb_spec 0 (Z.of_nat (length (gaps (marked_positions deck))))).
  - apply Number_div_nonneg; [apply gaps_nonneg | done].
  - apply Qle_refl.
Qed.

Lemma average_of_permutation (template deck : elems) :
  (2 <= count_marked template)%nat ->
  deck ≡ₚ template ->
  (0 <= calculateAverageDistance deck)%Q
  /\ (calculateAverageDistance deck <= average_bound template)%Q.
Proof.
  intros Hm HP. split; [apply average_nonneg|].
  assert (Hc : count_marked deck = count_marked template).
  { unfold count_marked. now apply Permutation_count_occ. }
  assert (Hl : length deck = length template) by now apply Permutation_length.
  unfold average_bound. rewrite <- Hc, <- Hl.
  apply average_upper_bound. lia.
Qed.

Lemma averages_of_permutations (template : elems) (arrays : list loc)
    (st : state) :
  (2 <= count_marked template)%nat ->
  Forall (fun a => contents (heap st) a ≡ₚ template) arrays ->
  exists samples,
    averages arrays st = Some (samples, st)
    /\ length samples = length arrays
    /\ Forall (fun s => (0 <= s)%Q /\ (s <= average_bound template)%Q) samples.
Proof.
  intros Hm HP. rewrite averages_run. eexists. split; [reflexivity|].
  split; [apply length_map|].
  induction HP as [|a arrays Ha _ IH]; cbn [map]; constructor; [|exact IH].
  now apply average_of_permutation.
Qed.

Lemma main_averages (rnd : nat -> Q) (budget : nat)
    (samples : list Q * list Q * list Q) (st' : state) :
  main rnd budget initial_state = Some (samples, st') ->
  ((forall n, unit_interval (rnd n)) ->
   Forall (fun s => (0 <= s)%Q /\ (s <= 6)%Q) samples.1.1)
  /\ Forall (fun s => (0 <= s)%Q /\ (s <= 6)%Q) samples.1.2
  /\ Forall (fun s => (0 <= s)%Q /\ (s <= 6)%Q) samples.2.
Proof.
  unfold main, bind. generalize SIM_COUNT. intros trials.
  destruct (simulateUnordered rnd budget unordered trials [] initial_state)
    as [[ua st1]|] eqn:E1; [|discriminate].
  rewrite averages_run.
  destruct (simulateFixed rnd budget bottomStacked trials [] st1)
    as [[ba st2]|] eqn:E2; [|discriminate].
  rewrite averages_run.
  destruct (simulateFixed rnd budget piled trials [] st2)
    as [[pa st3]|] eqn:E3; [|discriminate].
  rewrite averages_run. intros [= <- <-]. cbn [fst snd].
  assert (H0 : length (heap initial_state) = 3%nat) by reflexivity.
  assert (Hu : (unordered < length (heap initial_state))%nat)
    by (rewrite H0; unfold unordered; lia).
  pose proof (simulateUnordered_frame rnd trials budget unordered [] _ _ _
                Hu E1) as [[L1 U1] _].
  pose proof (simulateFixed_unchanged rnd trials _ _ _ _ _ _ E2) as [L2 U2].
  assert (Hb : (bottomStacked < length (heap st1))%nat)
    by (rewrite H0 in L1; unfold bottomStacked; lia).
  assert (Hp : (piled < length (heap st2))%nat)
    by (rewrite H0 in L1; unfold piled; lia).
  assert (Hin : forall b, b <> unordered -> b ∉ [unordered]).
  { intros b Hb' Hin. apply list_elem_of_singleton in Hin. exact (Hb' Hin). }
  assert (B6 : forall template deck : elems,
             length template = 50%nat -> count_marked template = 8%nat ->
             deck ≡ₚ template ->
             (0 <= calculateAverageDistance deck)%Q
             /\ (calculateAverageDistance deck <= 6)%Q).
  { intros template deck Hl Hc HP.
    destruct (average_of_permutation template deck ltac:(lia) HP) as [A B].
    split; [exact A|]. eapply Qle_trans; [exact B|].
    unfold average_bound. rewrite Hl, Hc. vm_compute. discriminate. }
  split; [|split].
  - intros Hr.
    destruct (simulateUnordered_results rnd trials budget unordered [] _ _ _
                Hu Hr E1) as (results & -> & _ & _ & HP).
    cbn [app]. clear -HP B6.
    induction HP as [|a results Ha _ IH]; cbn [map]; constructor; [|exact IH].
    now apply (B6 unordered_init).
  - destruct (simulateFixed_results rnd trials budget bottomStacked [] _ _ _
                Hb E2) as (results & -> & _ & _ & HP).
    assert (Et : contents (heap st1) bottomStacked = bottomStacked_init).
    { rewrite U1; [done | rewrite H0; unfold bottomStacked; lia |].
      apply Hin. discriminate. }
    rewrite Et in HP. cbn [app]. clear -HP B6.
    induction HP as [|a results Ha _ IH]; cbn [map]; constructor; [|exact IH].
    now apply (B6 bottomStacked_init).
  - destruct (simulateFixed_results rnd trials budget piled [] _ _ _
                Hp E3) as (results & -> & _ & _ & HP).
    assert (Et : contents (heap st2) piled = piled_init).
    { rewrite U2, U1; [done | rewrite H0; unfold piled; lia | |
                       rewrite H0 in L1; unfold piled; lia |].
      - apply Hin. discriminate.
      - apply not_elem_of_nil. }
    rewrite Et in HP. cbn [app]. clear -HP B6.
    induction HP as [|a results Ha _ IH]; cbn [map]; constructor; [|exact IH].
    now apply (B6 piled_init).
Qed.

(** * The further properties *)

(** ** calculateAverageDistance *)

(** X1.  On a deck written around its first and its last marked card,
    [calculateAverageDistance] returns the number of unmarked cards between
    these two, divided (by the division of the language) by the number of
    marked cards less one: the cards before the first marked card and after
    the last one, however many, do not count, and neither does the way the
    marked cards in between are spread.  Every deck with two marked cards
    or more can be written so. *)
Theorem average_distance_between_outer_marks :
  (forall before middle after : elems,
      count_marked before = 0%nat -> count_marked after = 0%nat ->
      calculateAverageDistance (before ++ 1 :: middle ++ 1 :: after)
      = Number_div
          (inject_Z (Z.of_nat (length middle) - Z.of_nat (count_marked middle)))
          (inject_Z (Z.of_nat (count_marked middle) + 1)))
  /\ (forall deck : elems,
         (2 <= count_marked deck)%nat ->
         exists before middle after,
           deck = before ++ 1 :: middle ++ 1 :: after
           /\ count_marked before = 0%nat /\ count_marked after = 0%nat).
Proof.
  split; [apply average_between_outer_marks | apply outer_marks_split].
Qed.

Lemma average_distance_between_outer_marks_witness :
  calculateAverageDistance ([0; 0] ++ 1 :: [0; 1; 0; 0] ++ 1 :: [0])
  = Number_div (inject_Z (4 - 1)) (inject_Z (1 + 1)).
Proof.
  apply (proj1 average_distance_between_outer_marks [0; 0] [0; 1; 0; 0] [0]);
    reflexivity.
Defined.

(** X2.  On a deck with [m >= 2] marked cards among [n],
    [calculateAverageDistance] returns at most the Number that the language
    computes for [(n - m) / (m - 1)], which can lie above the exact
    quotient, by at most one part in [2^53] of it; so on a deck of 50 cards
    with 8 marked cards the result is at most 6. *)
Theorem average_distance_upper_bound (deck : elems) :
  (2 <= count_marked deck)%nat ->
  (calculateAverageDistance deck
   <= Number_div
        (inject_Z (Z.of_nat (length deck) - Z.of_nat (count_marked deck)))
        (inject_Z (Z.of_nat (count_marked deck) - 1)))%Q
  /\ (Number_div
        (inject_Z (Z.of_nat (length deck) - Z.of_nat (count_marked deck)))
        (inject_Z (Z.of_nat (count_marked deck) - 1))
      <= (inject_Z (Z.of_nat (length deck) - Z.of_nat (count_marked deck))
          / inject_Z (Z.of_nat (count_marked deck) - 1))
         * (1 + pow2 (-53)) + pow2 (-1075))%Q
  /\ (length deck = 50%nat -> count_marked deck = 8%nat ->
      (calculateAverageDistance deck <= 6)%Q).
Proof.
  intros H. split; [now apply average_upper_bound|]. split.
  - pose proof (count_marked_le_length deck) as Hle.
    pose proof (quotient_nonneg
                  (Z.of_nat (length deck) - Z.of_nat (count_marked deck))
                  (Z.of_nat (count_marked deck) - 1) ltac:(lia) ltac:(lia))
      as H0.
    pose proof (binary64_upper _ H0) as Hu. unfold Number_div. lra.
  - intros Hl Hc. eapply Qle_trans; [now apply average_upper_bound|].
    rewrite Hl, Hc. vm_compute. discriminate.
Qed.

Lemma average_distance_upper_bound_witness :
  (calculateAverageDistance piled_init <= 6)%Q.
Proof.
  refine (proj2 (proj2 (average_distance_upper_bound piled_init _)) _ _).
  - vm_compute. lia.
  - reflexivity.
  - reflexivity.
Defined.

(** X3.  [calculateAverageDistance] gives the same result on a deck and on
    the deck in reverse order. *)
Theorem average_distance_reverse (deck : elems) :
  calculateAverageDistance (rev deck) = calculateAverageDistance deck.
Proof. apply average_reverse. Qed.

(** ** riffleShuffle *)

(** X4.  The loop of a repetition never empties the left half: started as
    in a repetition, with [leftCount] the number of cards of a left half
    that is not empty, and with packet sizes that are not negative, it ends
    with at least one card still in the left half, which is left to line 62
    to put into the deck. *)
Theorem interleave_leaves_a_card (rnd : nat -> Q) (budget : nat)
    (deck leftHalf : loc) (packetError rightCount : Z) (h : list elems)
    (c : nat) (rightCount' : Z) (st' : state) :
  deck <> leftHalf ->
  (deck < length h)%nat -> (leftHalf < length h)%nat ->
  (forall n, unit_interval (rnd n)) -> 0 <= packetError ->
  contents h leftHalf <> [] ->
  interleave rnd budget deck leftHalf packetError
    (Z.of_nat (length (contents h leftHalf))) rightCount (mkState h c)
  = Some (rightCount', st') ->
  contents (heap st') leftHalf <> [].
Proof.
  intros Hne Hd Hl Hr Hpe HL H.
  apply interleave_result in H; try done.
  apply interleave_model_leftHalf in H.
  - intros E. rewrite E in H. cbn in H. lia.
  - now apply takeAmount_at_nonneg.
  - destruct (contents h leftHalf); [done | cbn [length]; lia].
Qed.

Lemma interleave_leaves_a_card_witness :
  exists rightCount' st',
    interleave always_half 4 0%nat 1%nat 4 4 4
      (mkState [[0; 1; 0; 0]; [1; 0; 0; 1]] 2) = Some (rightCount', st')
    /\ contents (heap st') 1%nat <> [].
Proof.
  eexists _, _. split; [vm_compute; reflexivity|].
  refine (interleave_leaves_a_card always_half 4 0%nat 1%nat 4 4
            [[0; 1; 0; 0]; [1; 0; 0; 1]] 2%nat _ _ _ _ _ _ _ _ _).
  - discriminate.
  - vm_compute. lia.
  - vm_compute. lia.
  - exact always_half_unit_interval.
  - lia.
  - discriminate.
  - vm_compute. reflexivity.
Defined.

(** X5.  A repetition never reorders or removes the cards that the cut
    leaves in the deck: they are, in the same order, a subsequence of the
    deck after the repetition. *)
Theorem repetition_keeps_right_order (rnd : nat -> Q) (budget : nat)
    (deck : loc) (splitError packetError : Z) (h : list elems) (c : nat)
    (st' : state) :
  (deck < length h)%nat ->
  repetition rnd budget deck splitError packetError (mkState h c)
  = Some (tt, st') ->
  let k := Z.to_nat (clamped_cut (Z.of_nat (length (contents h deck)))
                       (rnd c) splitError) in
  drop k (contents h deck) `sublist_of` contents (heap st') deck.
Proof.
  intros Hd H k. apply repetition_result in H; [|done].
  apply repetition_model_sublist in H.
  rewrite split_model_take_drop in H. exact H.
Qed.

Lemma repetition_keeps_right_order_witness :
  exists st',
    repetition always_half 4 0%nat 4 4 (mkState [small_deck] 0)
    = Some (tt, st')
    /\ [0; 1; 0; 0] `sublist_of` contents (heap st') 0%nat.
Proof.
  eexists. split; [vm_compute; reflexivity|].
  refine (repetition_keeps_right_order always_half 4 0%nat 4 4 [small_deck]
            0%nat _ _ _).
  - vm_compute. lia.
  - vm_compute. reflexivity.
Defined.

(** X6.  A repetition whose cut takes no card skips the loop: it returns
    without any iteration, leaves the deck as it is, and consumes two
    random results.  So on an empty deck [riffleShuffle] returns an empty
    array for every number of repetitions and all parameters, after two
    random results for each repetition. *)
Theorem riffleShuffle_cut_of_no_card (rnd : nat -> Q) (deck : loc)
    (splitError packetError : Z) (h : list elems) (c : nat) :
  (deck < length h)%nat ->
  (clamped_cut (Z.of_nat (length (contents h deck))) (rnd c) splitError = 0 ->
   exists h',
     repetition rnd 0 deck splitError packetError (mkState h c)
     = Some (tt, mkState h' (S (S c)))
     /\ contents h' deck = contents h deck)
  /\ (contents h deck = [] ->
      forall repetitions,
      exists st',
        riffleShuffle rnd 0 deck repetitions splitError packetError
          (mkState h c) = Some (length h, st')
        /\ contents (heap st') (length h) = []
        /\ cursor st' = (c + 2 * repetitions)%nat).
Proof.
  intros Hd. split.
  - intros H0.
    pose proof (repetition_run rnd 0 deck splitError packetError h c Hd) as R.
    rewrite repetition_model_no_card in R by done.
    destruct R as (h' & R & HD & _). eauto.
  - intros He repetitions.
    pose proof (riffleShuffle_run rnd 0 deck repetitions splitError
                  packetError h c) as R.
    rewrite He, riffle_model_empty in R.
    destruct R as (h' & R & HD & _). eauto.
Qed.

Lemma riffleShuffle_cut_of_no_card_witness :
  exists st',
    riffleShuffle always_zero 0 0%nat 3 4 4 (mkState [[]] 0)
    = Some (1%nat, st')
    /\ contents (heap st') 1%nat = []
    /\ cursor st' = 6%nat.
Proof.
  refine (proj2 (riffleShuffle_cut_of_no_card always_zero 0%nat 4 4 [[]] 0%nat
                   _) _ 3%nat).
  - vm_compute. lia.
  - reflexivity.
Defined.

(** X7.  Every iteration of the [while] loop of a repetition consumes two
    random results, and every repetition two more before its loop.  A loop
    that ends has made the number of iterations that its condition gives,
    the packet sizes drawn being taken off [leftCount] one after the other
    ([while_iterations]): it stops at the first iteration at which the
    packet sizes drawn add up to [leftCount] or more, and it leaves the
    random stream twice as many positions further.  A call of [riffleShuffle] that returns has consumed
    two random results for each repetition and two for each iteration of
    its loops, whose number ([riffle_iterations]) is fixed by the length of
    the deck, the cuts and the packet sizes drawn. *)
Theorem riffleShuffle_random_results :
  (forall (rnd : nat -> Q) (budget : nat) (deck leftHalf : loc)
          (packetError leftCount rightCount : Z) (st : state)
          (rightCount' : Z) (st' : state),
      deck <> leftHalf ->
      (deck < length (heap st))%nat -> (leftHalf < length (heap st))%nat ->
      interleave rnd budget deck leftHalf packetError leftCount rightCount st
      = Some (rightCount', st') ->
      exists iterations,
        while_iterations rnd budget packetError (cursor st) leftCount
        = Some iterations
        /\ cursor st' = (cursor st + 2 * iterations)%nat
        /\ leftCount <= packets_drawn rnd packetError (cursor st) iterations
        /\ (forall m, (m < iterations)%nat ->
                      packets_drawn rnd packetError (cursor st) m < leftCount))
  /\ (forall (rnd : nat -> Q) (budget : nat) (deckInput : loc)
             (repetitions : nat) (splitError packetError : Z)
             (st : state) (out : loc) (st' : state),
         riffleShuffle rnd budget deckInput repetitions splitError packetError
           st = Some (out, st') ->
         exists iterations,
           riffle_iterations rnd budget repetitions splitError packetError
             (cursor st) (Z.of_nat (length (contents (heap st) deckInput)))
           = Some iterations
           /\ (iterations <= repetitions * budget)%nat
           /\ cursor st' = (cursor st + 2 * (repetitions + iterations))%nat).
Proof.
  split.
  - intros rnd budget deck leftHalf pe lc rc [h c] rc' st' Hne Hd Hl H.
    cbn [heap cursor] in *.
    apply interleave_result in H; [|done..].
    apply interleave_model_iterations in H as (k & E & _ & ->).
    exists k. split; [exact E|]. split; [reflexivity|].
    now apply (while_iterations_least rnd budget).
  - intros rnd budget deckInput repetitions se pe st out st' H.
    apply riffleShuffle_result in H as (H & _ & _).
    now apply riffle_model_iterations in H.
Qed.

(** A call of the script on the piled deck when every random result is one
    half: every cut takes 25 cards, every packet size drawn is 2, and each
    of the 7 loops makes 13 iterations. *)
Lemma riffleShuffle_random_results_witness :
  exists out st',
    riffleShuffle always_half 30 piled REPETITIONS SPLIT_ERROR PACKET_ERROR
      initial_state = Some (out, st')
    /\ riffle_iterations always_half 30 REPETITIONS SPLIT_ERROR PACKET_ERROR
         0 50 = Some 91%nat
    /\ cursor st' = 196%nat.
Proof.
  eexists _, _. split; [vm_compute; reflexivity|].
  destruct (proj2 riffleShuffle_random_results always_half 30%nat piled
              REPETITIONS SPLIT_ERROR PACKET_ERROR initial_state _ _
              ltac:(vm_compute; reflexivity)) as (iterations & E & _ & Ec).
  assert (E91 : riffle_iterations always_half 30 REPETITIONS SPLIT_ERROR
                  PACKET_ERROR 0 50 = Some 91%nat)
    by (vm_compute; reflexivity).
  split; [exact E91|].
  change (riffle_iterations always_half 30 REPETITIONS SPLIT_ERROR
            PACKET_ERROR 0 50 = Some iterations) in E.
  rewrite E91 in E. injection E as <-. exact Ec.
Defined.

(** ** fisherYatesShuffle *)

(** X9.  Whatever the random results, [fisherYatesShuffle] keeps the length
    of the array and consumes one random result for each position but the
    first; an array with one element or none is left as it is and no random
    result is consumed. *)
Theorem fisherYatesShuffle_lengths (rnd : nat -> Q) (array : loc)
    (st : state) :
  (array < length (heap st))%nat ->
  exists st',
    fisherYatesShuffle rnd array st = Some (array, st')
    /\ length (contents (heap st') array) = length (contents (heap st) array)
    /\ cursor st'
       = (cursor st + (length (contents (heap st) array) - 1))%nat
    /\ ((length (contents (heap st) array) <= 1)%nat -> st' = st).
Proof.
  destruct st as [h c]. cbn [heap cursor]. intros Ha.
  rewrite fisherYatesShuffle_run by done. eexists. split; [reflexivity|].
  cbn [heap cursor].
  destruct (fisherYates_spec_length rnd c (contents h array)) as [E1 E2].
  split; [|split].
  - now rewrite contents_insert_eq.
  - exact E2.
  - intros Hs. rewrite fisherYates_spec_short by done. cbn [fst snd].
    now rewrite contents_insert_id.
Qed.

Lemma fisherYatesShuffle_lengths_witness :
  exists st',
    fisherYatesShuffle always_zero 1%nat (mkState [four_cards; [1]] 5)
    = Some (1%nat, st')
    /\ st' = mkState [four_cards; [1]] 5.
Proof.
  destruct (fisherYatesShuffle_lengths always_zero 1%nat
              (mkState [four_cards; [1]] 5) ltac:(vm_compute; lia))
    as (st' & H & _ & _ & E).
  exists st'. split; [exact H|]. apply E. vm_compute. lia.
Defined.

(** ** The simulation loops *)

(** X10.  The shuffled arrays that a simulation loop collects are as many
    as the trials, they are arrays created by the loop and all different,
    and each of them holds, when the loop ends, a permutation of the deck
    that the template held when the loop started. *)
Theorem simulation_results :
  (forall (rnd : nat -> Q) (budget : nat) (template : loc) (trials : nat)
          (st st' : state) (arrays : list loc),
      (template < length (heap st))%nat ->
      simulateFixed rnd budget template trials [] st = Some (arrays, st') ->
      length arrays = trials
      /\ fresh_from (length (heap st)) arrays (length (heap st'))
      /\ Forall (fun a => contents (heap st') a
                          ≡ₚ contents (heap st) template) arrays)
  /\ (forall (rnd : nat -> Q) (budget : nat) (template : loc) (trials : nat)
             (st st' : state) (arrays : list loc),
         (template < length (heap st))%nat ->
         (forall n, unit_interval (rnd n)) ->
         simulateUnordered rnd budget template trials [] st
         = Some (arrays, st') ->
         length arrays = trials
         /\ fresh_from (length (heap st)) arrays (length (heap st'))
         /\ Forall (fun a => contents (heap st') a
                             ≡ₚ contents (heap st) template) arrays).
Proof.
  split.
  - intros rnd budget template trials st st' arrays Ht H.
    destruct (simulateFixed_results rnd trials budget template [] st arrays
                st' Ht H) as (results & -> & H1 & H2 & H3).
    now cbn [app].
  - intros rnd budget template trials st st' arrays Ht Hr H.
    destruct (simulateUnordered_results rnd trials budget template [] st
                arrays st' Ht Hr H) as (results & -> & H1 & H2 & H3).
    now cbn [app].
Qed.

Lemma simulation_results_witness :
  exists arrays st',
    simulateUnordered always_half 30 unordered 2 [] initial_state
    = Some (arrays, st')
    /\ length arrays = 2%nat
    /\ fresh_from 3 arrays (length (heap st'))
    /\ Forall (fun a => contents (heap st') a ≡ₚ unordered_init) arrays.
Proof.
  eexists _, _. split; [vm_compute; reflexivity|].
  refine (proj2 simulation_results always_half 30%nat unordered 2%nat
            initial_state _ _ _ _ _).
  - vm_compute. lia.
  - exact always_half_unit_interval.
  - vm_compute. reflexivity.
Defined.

(** X11.  The averages computed over arrays that hold permutations of a
    deck with [m >= 2] marked cards among [n] all lie between 0 and the
    Number that the language computes for [(n - m) / (m - 1)]
    ([average_bound]); and every average that the script computes lies
    between 0 and 6 (for the unordered deck, when the random results are
    Numbers of the unit interval). *)
Theorem averages_bounds :
  (forall (template : elems) (arrays : list loc) (st : state),
      (2 <= count_marked template)%nat ->
      Forall (fun a => contents (heap st) a ≡ₚ template) arrays ->
      exists samples,
        averages arrays st = Some (samples, st)
        /\ length samples = length arrays
        /\ Forall (fun s => (0 <= s)%Q /\ (s <= average_bound template)%Q)
                  samples)
  /\ (forall (rnd : nat -> Q) (budget : nat)
             (samples : list Q * list Q * list Q) (st' : state),
         main rnd budget initial_state = Some (samples, st') ->
         ((forall n, unit_interval (rnd n)) ->
          Forall (fun s => (0 <= s)%Q /\ (s <= 6)%Q) samples.1.1)
         /\ Forall (fun s => (0 <= s)%Q /\ (s <= 6)%Q) samples.1.2
         /\ Forall (fun s => (0 <= s)%Q /\ (s <= 6)%Q) samples.2).
Proof.
  split.
  - apply averages_of_permutations.
  - apply main_averages.
Qed.

Lemma averages_bounds_witness :
  exists samples,
    averages [0%nat; 1%nat] (mkState [[1; 0; 0; 1]; [0; 1; 1; 0]] 0)
    = Some (samples, mkState [[1; 0; 0; 1]; [0; 1; 1; 0]] 0)
    /\ length samples = 2%nat
    /\ Forall (fun s => (0 <= s)%Q /\ (s <= average_bound four_cards)%Q)
              samples.
Proof.
  refine (proj1 averages_bounds four_cards [0%nat; 1%nat]
            (mkState [[1; 0; 0; 1]; [0; 1; 1; 0]] 0) _ _).
  - vm_compute. lia.
  - constructor; [reflexivity|]. constructor; [|constructor].
    change ([0; 1; 1; 0] ≡ₚ [1; 0; 0; 1]).
    etrans; [apply perm_swap|]. do 2 apply perm_skip. apply perm_swap.
Defined.

(** ** Repetitions and the cut: lemmas *)

Lemma riffle_model_add (rnd : nat -> Q) (n m : nat) :
  forall (budget : nat) (splitError packetError : Z) (c : nat) (D : elems),
    riffle_model rnd budget (n + m) splitError packetError c D
    = match riffle_model rnd budget n splitError packetError c D with
      | Some (D1, c1) =>
          riffle_model rnd budget m splitError packetError c1 D1
      | None => None
      end.
Proof.
  induction n as [|n IH]; intros budget se pe c D;
    cbn [Nat.add riffle_model]; [done|].
  destruct (repetition_model rnd budget se pe c D) as [[D1 c1]|]; [|done].
  apply IH.
Qed.

Lemma clamped_cut_in_range (len : Z) (r : Q) (splitError : Z) :
  unit_interval r ->
  splitError <= len / 2 ->
  8 <= splitError + (len - len / 2) ->
  let U := Math_floor (Number_mul r 9) in
  ToIntegerOrInfinity (cutDeckVariant len r splitError)
  = len / 2 + U - splitError
  /\ clamped_cut len r splitError = len / 2 + U - splitError
  /\ 0 <= len / 2 + U - splitError <= len
  /\ len / 2 - splitError <= clamped_cut len r splitError
     <= len / 2 + 8 - splitError.
Proof.
  intros Hr H1 H2 U.
  pose proof (Math_floor_scaled_range r 9 Hr ltac:(lia)) as HU.
  change (inject_Z 9) with 9%Q in HU. fold U in HU.
  unfold clamped_cut. rewrite ToIntegerOrInfinity_cut. fold U.
  assert (E : Z.quot (len + 2 * (U - splitError)) 2
              = len / 2 + U - splitError).
  { clearbody U. Z.to_euclidean_division_equations. lia. }
  rewrite E. clearbody U. Z.to_euclidean_division_equations. lia.
Qed.

(** ** riffleShuffle: repetitions and the cut *)

(** X12.  Repetitions compose: a call of [riffleShuffle] with [n + m]
    repetitions that returns gives the deck, and leaves the random stream
    at the position, that a call with [n] repetitions followed by a call
    with [m] repetitions on its result gives. *)
Theorem riffleShuffle_repetitions_compose (rnd : nat -> Q) (budget : nat)
    (deckInput : loc) (n m : nat) (splitError packetError : Z)
    (st st' : state) (out : loc) :
  riffleShuffle rnd budget deckInput (n + m) splitError packetError st
  = Some (out, st') ->
  exists mid st1 out2 st2,
    riffleShuffle rnd budget deckInput n splitError packetError st
    = Some (mid, st1)
    /\ riffleShuffle rnd budget mid m splitError packetError st1
       = Some (out2, st2)
    /\ contents (heap st2) out2 = contents (heap st') out
    /\ cursor st2 = cursor st'.
Proof.
  intros H. apply riffleShuffle_result in H as (H & _ & _).
  destruct st as [h c]. cbn [heap cursor] in H.
  rewrite riffle_model_add in H.
  pose proof (riffleShuffle_run rnd budget deckInput n splitError packetError
                h c) as R1.
  destruct (riffle_model rnd budget n _ _ _ _) as [[D1 c1]|]; [|discriminate].
  destruct R1 as (h1 & R1 & HD1 & _).
  pose proof (riffleShuffle_run rnd budget (length h) m splitError packetError
                h1 c1) as R2.
  rewrite HD1, H in R2. destruct R2 as (h2 & R2 & HD2 & _).
  exists (length h), (mkState h1 c1), (length h1), (mkState h2 (cursor st')).
  now repeat split.
Qed.

Lemma riffleShuffle_repetitions_compose_witness :
  exists mid st1 out2 st2,
    riffleShuffle always_half 30 piled 3 SPLIT_ERROR PACKET_ERROR initial_state
    = Some (mid, st1)
    /\ riffleShuffle always_half 30 mid 4 SPLIT_ERROR PACKET_ERROR st1
       = Some (out2, st2).
Proof.
  destruct (riffleShuffle_repetitions_compose always_half 30 piled 3 4
              SPLIT_ERROR PACKET_ERROR initial_state _ _
              ltac:(vm_compute; reflexivity))
    as (mid & st1 & out2 & st2 & H1 & H2 & _).
  exists mid, st1, out2, st2. split; [exact H1 | exact H2].
Defined.

(** X13.  When [splitError] is at most half the length of the deck (rounded
    down) and the other half has at least [8 - splitError] cards, the size
    computed for the cut is never out of range: with
    [U = Math.floor(r * 9)] for the random result [r] of the cut, [splice]
    receives [floor(deckLength / 2) + U - splitError], a number between 0
    and the length of the deck, and takes exactly as many cards, the first
    ones of the deck, leaving the others.  With the values of the script,
    50 cards and [splitError = 4], the left half has [21 + U] cards,
    between 21 and 29. *)
Theorem cut_never_clamped (rnd : nat -> Q) (deck : loc) (splitError : Z)
    (h : list elems) (c : nat) :
  (deck < length h)%nat ->
  unit_interval (rnd c) ->
  let deckLength := Z.of_nat (length (contents h deck)) in
  let U := Math_floor (Number_mul (rnd c) 9) in
  splitError <= deckLength / 2 ->
  8 <= splitError + (deckLength - deckLength / 2) ->
  ToIntegerOrInfinity (cutDeckVariant deckLength (rnd c) splitError)
  = deckLength / 2 + U - splitError
  /\ 0 <= deckLength / 2 + U - splitError <= deckLength
  /\ (exists leftHalf h',
         splitDeck rnd deck splitError (mkState h c)
         = Some (leftHalf, mkState h' (S c))
         /\ Z.of_nat (length (contents h' leftHalf))
            = deckLength / 2 + U - splitError
         /\ contents h' leftHalf
            = take (Z.to_nat (deckLength / 2 + U - splitError))
                   (contents h deck)
         /\ contents h' deck
            = drop (Z.to_nat (deckLength / 2 + U - splitError))
                   (contents h deck)
         /\ (deckLength = 50 -> splitError = SPLIT_ERROR ->
             Z.of_nat (length (contents h' leftHalf)) = 21 + U
             /\ 21 <= Z.of_nat (length (contents h' leftHalf)) <= 29)).
Proof.
  intros Hd Hr deckLength U H1 H2.
  destruct (clamped_cut_in_range deckLength (rnd c) splitError Hr H1 H2)
    as (E1 & E2 & E3 & E4).
  fold U in E1, E2, E3.
  split; [exact E1|]. split; [exact E3|].
  destruct (splitDeck_contents rnd deck splitError h c Hd)
    as (h' & Hrun & HL & HD).
  fold deckLength in HL, HD. rewrite E2 in HL, HD.
  assert (EL : Z.of_nat (length (contents h' (length h)))
               = deckLength / 2 + U - splitError).
  { rewrite HL, length_take. unfold deckLength in *. lia. }
  exists (length h), h'. split; [exact Hrun|].
  split; [exact EL|]. split; [exact HL|]. split; [exact HD|].
  intros E50 Ese. rewrite EL. rewrite E50, Ese in E3 |- *.
  unfold SPLIT_ERROR in *. change (50 / 2) with 25 in *.
  pose proof (Math_floor_scaled_range (rnd c) 9 Hr ltac:(lia)) as HU.
  change (inject_Z 9) with 9%Q in HU. fold U in HU. lia.
Qed.

Lemma cut_never_clamped_witness :
  exists leftHalf h',
    splitDeck always_half bottomStacked SPLIT_ERROR initial_state
    = Some (leftHalf, mkState h' 1)
    /\ Z.of_nat (length (contents h' leftHalf)) = 25.
Proof.
  destruct (cut_never_clamped always_half bottomStacked SPLIT_ERROR
              (heap initial_state) 0%nat
              ltac:(vm_compute; lia) (always_half_unit_interval 0%nat)
              ltac:(vm_compute; discriminate) ltac:(vm_compute; discriminate))
    as (_ & _ & leftHalf & h' & Hrun & HL & _).
  exists leftHalf, h'. split; [exact Hrun|].
  rewrite HL. vm_compute. reflexivity.
Defined.
